(** * SnapNote: the document-geometry pipeline of [processor.py]

    A shallow embedding of [order_points], [four_point_transform],
    [find_document_contour], [apply_adaptive_threshold], [increase_contrast]
    and [process_image], with the properties of the pipeline proved over it.

    Conventions of the embedding.
    - A pixel channel is an integer in [0, 255] ([uint8]), held in [Z].
    - A numpy floating-point number is held as the rational it denotes ([Q]);
      sums, differences and products are exact, so the rounding of [float32]
      and [float64] arithmetic is not part of the model.
    - A call that raises in Python returns [Raise] here; everything else
      returns [Ok].
    - The OpenCV kernels whose pixel arithmetic the program does not depend
      on (blur, edge detector, contour tracing, resampling, ...) are the
      fields of the record [OpenCV]; whatever OpenCV documents about shapes,
      channel counts and rejected inputs is written out in the definitions
      that call them. *)

From Stdlib Require Import String.
From Stdlib Require Import ZArith QArith Qround Qabs List Bool Lia.
From Stdlib Require Import Permutation Sorted.
From Stdlib Require Import Reals Qreals Lra.
From Stdlib Require Lqa.
Import ListNotations.

Local Open Scope Z_scope.

(** ** Exceptions *)

Inductive exn : Type :=
| cv2_error     (* an assertion of OpenCV failed *)
| ValueError.   (* numpy: attempt to get argmin/argmax of an empty sequence *)

Inductive result (A : Type) : Type :=
| Ok (a : A)
| Raise (e : exn).

Arguments Ok {A} a.
Arguments Raise {A} e.

Definition bind {A B : Type} (m : result A) (k : A -> result B) : result B :=
  match m with
  | Ok a => k a
  | Raise e => Raise e
  end.

Notation "x <- m ;; k" := (bind m (fun x => k))
  (at level 61, m at next level, right associativity).

Definition is_ok {A : Type} (m : result A) : bool :=
  match m with Ok _ => true | Raise _ => false end.

(** ** Points *)

(** A row of an N x 2 array: [(x, y)], x the column and y the row. *)
Definition point : Type := (Q * Q)%type.

Definition px (p : point) : Q := fst p.
Definition py (p : point) : Q := snd p.

(** [pts.sum(axis=1)]: one entry per point, x + y. *)
Definition psum (p : point) : Q := (px p + py p)%Q.

(** [np.diff(pts, axis=1)]: one entry per point, second column minus the
    first, that is y - x. *)
Definition pdiff (p : point) : Q := (py p - px p)%Q.

Definition Qltb (a b : Q) : bool := negb (Qle_bool b a).

(** [np.argmin]: the index of the first occurrence of the minimum. The scan
    keeps the best index and value seen so far and replaces them only on a
    strictly smaller entry. *)
Fixpoint argmin_from (besti : nat) (bestv : Q) (i : nat) (l : list Q) : nat :=
  match l with
  | [] => besti
  | x :: r =>
      if Qltb x bestv then argmin_from i x (S i) r
      else argmin_from besti bestv (S i) r
  end.

Definition argmin (l : list Q) : result nat :=
  match l with
  | [] => Raise ValueError
  | x :: r => Ok (argmin_from 0%nat x 1%nat r)
  end.

(** [np.argmax]: the index of the first occurrence of the maximum. *)
Fixpoint argmax_from (besti : nat) (bestv : Q) (i : nat) (l : list Q) : nat :=
  match l with
  | [] => besti
  | x :: r =>
      if Qltb bestv x then argmax_from i x (S i) r
      else argmax_from besti bestv (S i) r
  end.

Definition argmax (l : list Q) : result nat :=
  match l with
  | [] => Raise ValueError
  | x :: r => Ok (argmax_from 0%nat x 1%nat r)
  end.

(** [pts[i]] for an index that [argmin]/[argmax] returned; the default is
    never reached for such an index. *)
Definition row (pts : list point) (i : nat) : point := nth i pts (0%Q, 0%Q).

(** The 4 x 2 array [rect]: rows 0..3 are top-left, top-right, bottom-right,
    bottom-left. *)
Record rect : Type := mkRect { tl : point; tr : point; br : point; bl : point }.

(** processor.py, [order_points]. *)
Definition order_points (pts : list point) : result rect :=
  let s := map psum pts in
  i0 <- argmin s ;;
  i2 <- argmax s ;;
  let diff := map pdiff pts in
  i1 <- argmin diff ;;
  i3 <- argmax diff ;;
  Ok {| tl := row pts i0; tr := row pts i1; br := row pts i2; bl := row pts i3 |}.

(** ** Raster images *)

(** A raster is a list of rows. A numpy image of shape (h, w) is [Gray], one
    of shape (h, w, 3) is [Color] with pixels in OpenCV's B, G, R order. *)
Definition raster (A : Type) : Type := list (list A).

Definition bgr : Type := (Z * Z * Z)%type.

Inductive image : Type :=
| Gray (g : raster Z)
| Color (c : raster bgr).

Definition rows {A : Type} (r : raster A) : nat := length r.
Definition cols {A : Type} (r : raster A) : nat := length (hd [] r).

(** [image.shape[:2]] *)
Definition shape (img : image) : nat * nat :=
  match img with
  | Gray g => (rows g, cols g)
  | Color c => (rows c, cols c)
  end.

Definition channels (img : image) : nat :=
  match img with Gray _ => 1%nat | Color _ => 3%nat end.

(** [Mat::empty()]: no rows or no columns. *)
Definition empty (img : image) : bool :=
  let '(h, w) := shape img in ((h =? 0) || (w =? 0))%nat.

(** The raster of shape (h, w) whose pixel at row r, column c is [f r c]. *)
Definition tabulate {A : Type} (h w : nat) (f : nat -> nat -> A) : raster A :=
  map (fun r => map (f r) (seq 0 w)) (seq 0 h).

(** Pixelwise map that also passes the row and column of each pixel. *)
Definition mapi {A B : Type} (f : nat -> A -> B) (l : list A) : list B :=
  map (fun ia => f (fst ia) (snd ia)) (combine (seq 0 (length l)) l).

Definition mapi2 {A B : Type} (f : nat -> nat -> A -> B) (r : raster A) : raster B :=
  mapi (fun i line => mapi (f i) line) r.

(** A contour or polygon as OpenCV returns it: integer pixel coordinates. *)
Definition contour : Type := list (Z * Z).

(** ** The OpenCV kernels the program calls

    Each field takes the arguments the source passes. The pixel arithmetic
    of these kernels is left open; the theorems hold for every choice. *)
Record OpenCV : Type := {
  (* the 3 x 3 matrix of a projective map *)
  homography : Type;
  (* COLOR_BGR2GRAY on one pixel *)
  luma : bgr -> Z;
  (* cv2.resize: the pixel of the (w, h) output at row r, column c *)
  resize_gray : raster Z -> nat -> nat -> nat -> nat -> Z;
  resize_bgr : raster bgr -> nat -> nat -> nat -> nat -> bgr;
  (* cv2.GaussianBlur(src, ksize, sigmaX) *)
  GaussianBlur : raster Z -> nat * nat -> Q -> raster Z;
  (* cv2.Canny(image, threshold1, threshold2) *)
  Canny : raster Z -> Z -> Z -> raster Z;
  (* cv2.dilate(src, kernel, iterations) with a kernel of ones *)
  dilate : raster Z -> nat * nat -> nat -> raster Z;
  (* cv2.findContours(image, RETR_LIST, CHAIN_APPROX_SIMPLE), the contours *)
  findContours : raster Z -> list contour;
  contourArea : contour -> Q;
  (* cv2.arcLength(curve, closed) *)
  arcLength : contour -> bool -> Q;
  (* cv2.approxPolyDP(curve, epsilon, closed) *)
  approxPolyDP : contour -> Q -> bool -> contour;
  getPerspectiveTransform : rect -> list point -> homography;
  (* cv2.warpPerspective: the pixel of the output at row r, column c *)
  warp_gray : raster Z -> homography -> nat -> nat -> Z;
  warp_bgr : raster bgr -> homography -> nat -> nat -> bgr;
  (* cv2.createCLAHE(clipLimit, tileGridSize).apply(src) *)
  clahe_apply : Q -> nat * nat -> raster Z -> raster Z;
  (* cv2.bilateralFilter(src, d, sigmaColor, sigmaSpace) *)
  bilateralFilter : raster Z -> Z -> Q -> Q -> raster Z;
  (* the Gaussian-weighted mean of the blockSize x blockSize neighbourhood
     of the pixel at row r, column c (ADAPTIVE_THRESH_GAUSSIAN_C) *)
  gaussian_mean : raster Z -> nat -> nat -> nat -> Z
}.

Section Pipeline.

Context (cv : OpenCV).

(** [cv2.cvtColor(src, cv2.COLOR_BGR2GRAY)]: OpenCV asserts that the source
    is not empty and has 3 or 4 channels; a single-channel source is rejected
    (Invalid number of channels in input image). *)
Definition cvtColor_BGR2GRAY (src : image) : result (raster Z) :=
  if empty src then Raise cv2_error
  else match src with
       | Gray _ => Raise cv2_error
       | Color c => Ok (map (map (luma cv)) c)
       end.

(** [cv2.resize(src, (w, h))]: OpenCV asserts a non-empty source and a
    non-empty target size; the output has shape (h, w) and the channels of
    the source. *)
Definition resize (src : image) (dsize : Z * Z) : result image :=
  let '(w, h) := dsize in
  if empty src || (w <=? 0) || (h <=? 0) then Raise cv2_error
  else match src with
       | Gray g =>
           Ok (Gray (tabulate (Z.to_nat h) (Z.to_nat w)
                       (resize_gray cv g (Z.to_nat w) (Z.to_nat h))))
       | Color c =>
           Ok (Color (tabulate (Z.to_nat h) (Z.to_nat w)
                        (resize_bgr cv c (Z.to_nat w) (Z.to_nat h))))
       end.

(** [cv2.warpPerspective(src, M, (w, h))]: OpenCV asserts a non-empty source;
    the output has the channels of the source and shape (h, w), or the shape
    of the source when the requested size is empty (w <= 0 or h <= 0). *)
Definition warpPerspective (src : image) (M : homography cv) (dsize : Z * Z)
  : result image :=
  let '(w, h) := dsize in
  if empty src then Raise cv2_error
  else
    let '(oh, ow) :=
      if (w <=? 0) || (h <=? 0) then shape src else (Z.to_nat h, Z.to_nat w) in
    match src with
    | Gray g => Ok (Gray (tabulate oh ow (warp_gray cv g M)))
    | Color c => Ok (Color (tabulate oh ow (warp_bgr cv c M)))
    end.

(** *** Rectifier *)

(** [(a[0] - b[0]) ** 2 + (a[1] - b[1]) ** 2] *)
Definition dist2 (a b : point) : Q :=
  ((px a - px b) * (px a - px b) + (py a - py b) * (py a - py b))%Q.

(** [int(np.sqrt(q))]: the integer part of the square root of q >= 0, which
    is the integer square root of the integer part of q (theorem
    [int_sqrt_is_floor_of_sqrt] below states it over the real numbers). *)
Definition int_sqrt (q : Q) : Z := Z.sqrt (Qfloor q).

Definition maxWidth (r : rect) : Z :=
  let widthA := dist2 (br r) (bl r) in
  let widthB := dist2 (tr r) (tl r) in
  Z.max (int_sqrt widthA) (int_sqrt widthB).

Definition maxHeight (r : rect) : Z :=
  let heightA := dist2 (tr r) (br r) in
  let heightB := dist2 (tl r) (bl r) in
  Z.max (int_sqrt heightA) (int_sqrt heightB).

Definition dst_corners (w h : Z) : list point :=
  [ (0, 0); (inject_Z (w - 1), 0);
    (inject_Z (w - 1), inject_Z (h - 1)); (0, inject_Z (h - 1)) ]%Q.

(** processor.py, [four_point_transform]. *)
Definition four_point_transform (img : image) (pts : list point) : result image :=
  r <- order_points pts ;;
  let w := maxWidth r in
  let h := maxHeight r in
  let dst := dst_corners w h in
  let M := getPerspectiveTransform cv r dst in
  warpPerspective img M (w, h).

(** *** Quadrilateral locator *)

(** [sorted(cnts, key=key, reverse=True)]: a stable sort, largest key first;
    entries with equal keys keep their order. *)
Fixpoint insert_desc {A : Type} (key : A -> Q) (x : A) (l : list A) : list A :=
  match l with
  | [] => [x]
  | y :: r => if Qltb (key x) (key y) then y :: insert_desc key x r else x :: l
  end.

Definition sorted_desc {A : Type} (key : A -> Q) (l : list A) : list A :=
  fold_right (insert_desc key) [] l.

(** [approx.reshape(4, 2) / scale] *)
Definition rescale (approx : contour) (scale : Q) : list point :=
  map (fun p => (inject_Z (fst p) / scale, inject_Z (snd p) / scale)%Q) approx.

(** The polygon the loop body computes for a contour. *)
Definition approx_of (c : contour) : contour :=
  let peri := arcLength cv c true in
  approxPolyDP cv c ((2 # 100) * peri)%Q true.

(** The two tests of the loop body on the approximated polygon. *)
Definition accepts (min_area scale : Q) (approx : contour) : bool :=
  (List.length approx =? 4)%nat &&
  (let contour_area := contourArea cv approx in
   let scaled_min_area := (min_area * (scale * scale))%Q in
   Qle_bool scaled_min_area contour_area).

(** The inner loop, [for c in cnts], with its early return. *)
Fixpoint scan_contours (min_area scale : Q) (cnts : list contour)
  : option (list point) :=
  match cnts with
  | [] => None
  | c :: rest =>
      let approx := approx_of c in
      if accepts min_area scale approx then Some (rescale approx scale)
      else scan_contours min_area scale rest
  end.

(** The contours of one edge-detection pass. *)
Definition edge_contours (gray : raster Z) (canny : Z * Z) : list contour :=
  let '(canny_low, canny_high) := canny in
  let edged := Canny cv gray canny_low canny_high in
  let edged := dilate cv edged (3, 3)%nat 1%nat in
  findContours cv edged.

(** The candidates of one pass: [sorted(cnts, key=cv2.contourArea,
    reverse=True)[:10]]. *)
Definition candidates (gray : raster Z) (canny : Z * Z) : list contour :=
  let cnts := edge_contours gray canny in
  firstn 10 (sorted_desc (contourArea cv) cnts).

(** The outer loop over the threshold pairs. Next to the result it returns
    the pairs for which the edge detector was run, in the order of the runs. *)
Fixpoint canny_loop (gray : raster Z) (min_area scale : Q) (pairs : list (Z * Z))
  : list (Z * Z) * option (list point) :=
  match pairs with
  | [] => ([], None)
  | canny :: rest =>
      match scan_contours min_area scale (candidates gray canny) with
      | Some quad => ([canny], Some quad)
      | None =>
          let '(ran, res) := canny_loop gray min_area scale rest in
          (canny :: ran, res)
      end
  end.

Definition canny_pairs : list (Z * Z) := [(30, 100); (50, 150); (75, 200)].

(** [min_area = image_area * 0.2] *)
Definition min_area_of (img : image) : Q :=
  let '(h, w) := shape img in
  (inject_Z (Z.of_nat h * Z.of_nat w) * (2 # 10))%Q.

(** [scale]: 1000.0 / h when h > 1000, else 1.0. *)
Definition scale_of (img : image) : Q :=
  let '(h, _) := shape img in
  if (1000 <? Z.of_nat h) then (1000 # 1) / inject_Z (Z.of_nat h) else 1%Q.

(** The first lines of [find_document_contour]: the image is scaled down
    when it is taller than 1000 pixels, converted to gray and blurred. *)
Definition locator_gray (img : image) : result (raster Z) :=
  let '(h, w) := shape img in
  let scale := scale_of img in
  proc_img <-
    (if (1000 <? Z.of_nat h) then
       resize img (Qfloor (inject_Z (Z.of_nat w) * scale),
                   Qfloor (inject_Z (Z.of_nat h) * scale))
     else Ok img) ;;
  gray <- cvtColor_BGR2GRAY proc_img ;;
  Ok (GaussianBlur cv gray (5, 5)%nat 0).

(** processor.py, [find_document_contour], with the list of the threshold
    pairs that were run. *)
Definition find_document_contour_run (img : image)
  : result (list (Z * Z) * option (list point)) :=
  gray <- locator_gray img ;;
  Ok (canny_loop gray (min_area_of img) (scale_of img) canny_pairs).

(** processor.py, [find_document_contour]: [None] is "not found". *)
Definition find_document_contour (img : image) : result (option (list point)) :=
  run <- find_document_contour_run img ;;
  Ok (snd run).

(** *** Tonal enhancer *)

(** [cv2.adaptiveThreshold(src, maxValue, ADAPTIVE_THRESH_GAUSSIAN_C,
    THRESH_BINARY, blockSize, C)]: a pixel becomes maxValue when it exceeds
    the weighted mean of its neighbourhood minus C, and 0 otherwise. *)
Definition adaptiveThreshold (src : raster Z) (maxValue : Z) (blockSize : nat) (C : Z)
  : raster Z :=
  mapi2 (fun r c v =>
           if (- C <? v - gaussian_mean cv src blockSize r c) then maxValue else 0)
        src.

(** processor.py, [apply_adaptive_threshold]. *)
Definition apply_adaptive_threshold (img : image) : result image :=
  gray <- cvtColor_BGR2GRAY img ;;
  let enhanced := clahe_apply cv 3 (8, 8)%nat gray in
  let filtered := bilateralFilter cv enhanced 9 75 75 in
  let thresh := adaptiveThreshold filtered 255 11 2 in
  Ok (Gray thresh).

(** [cvRound]: to the nearest integer, ties to the even one. *)
Definition cvRound (q : Q) : Z :=
  let f := Qfloor q in
  let r := (q - inject_Z f)%Q in
  if Qltb r (1 # 2) then f
  else if Qltb (1 # 2) r then f + 1
  else if Z.even f then f else f + 1.

(** [saturate_cast<uchar>] *)
Definition saturate_u8 (z : Z) : Z := Z.max 0 (Z.min 255 z).

(** One channel of [cv2.convertScaleAbs]: scale, shift, take the absolute
    value, round and saturate to 8 bits. *)
Definition convertScaleAbs_px (alpha beta : Q) (v : Z) : Z :=
  saturate_u8 (cvRound (Qabs (inject_Z v * alpha + beta))).

Definition convertScaleAbs (src : image) (alpha beta : Q) : image :=
  let f := convertScaleAbs_px alpha beta in
  match src with
  | Gray g => Gray (map (map f) g)
  | Color c => Color (map (map (fun p => match p with (b, g, r) => (f b, f g, f r) end)) c)
  end.

(** processor.py, [increase_contrast]. *)
Definition increase_contrast (img : image) (alpha beta : Q) : image :=
  convertScaleAbs img alpha beta.

(** *** Pipeline *)

(** The first stage of [process_image]: the copy of the input, replaced by
    the rectified image when perspective correction is on and a document
    was located. *)
Definition perspective_stage (img : image) (use_perspective : bool) : result image :=
  let output := img in
  if use_perspective then
    contour <- find_document_contour img ;;
    match contour with
    | Some quad => four_point_transform img quad
    | None => Ok output
    end
  else Ok output.

(** The second stage of [process_image]: the dispatch on [enhance_mode]. *)
Definition enhance_stage (output : image) (enhance_mode : string) : result image :=
  if (enhance_mode =? "Grayscale")%string then
    gray <- cvtColor_BGR2GRAY output ;; Ok (Gray gray)
  else if (enhance_mode =? "Scan")%string then
    apply_adaptive_threshold output
  else if (enhance_mode =? "High Contrast")%string then
    Ok (increase_contrast output 2 (-50))
  else Ok output.

(** processor.py, [process_image]. *)
Definition process_image (img : image) (use_perspective : bool) (enhance_mode : string)
  : result image :=
  output <- perspective_stage img use_perspective ;;
  enhance_stage output enhance_mode.

End Pipeline.

(** ** A small instance of the kernels, for concrete runs

    The edge detector leaves the low threshold in the edge map and the
    contour tracer returns [found low], so that a run can be given the
    contours of each pass; the area is the shoelace formula. *)

Definition cross (p q : Z * Z) : Z := fst p * snd q - fst q * snd p.

Fixpoint shoelace (first : Z * Z) (c : contour) : Z :=
  match c with
  | [] => 0
  | p :: r =>
      match r with
      | [] => cross p first
      | q :: _ => cross p q + shoelace first r
      end
  end.

Definition polygon_area (c : contour) : Q :=
  match c with
  | [] => 0%Q
  | p :: _ => Z.abs (shoelace p c) # 2
  end.

Definition demo_cv (found : Z -> list contour) : OpenCV := {|
  homography := unit;
  luma := fun p => match p with (b, g, r) => (1868 * b + 9617 * g + 4899 * r + 8192) / 16384 end;
  resize_gray := fun _ _ _ _ _ => 0;
  resize_bgr := fun _ _ _ _ _ => (0, 0, 0);
  GaussianBlur := fun g _ _ => g;
  Canny := fun _ low _ => [[low]];
  dilate := fun e _ _ => e;
  findContours := fun e => found (hd 0 (hd [] e));
  contourArea := polygon_area;
  arcLength := fun c _ => inject_Z (Z.of_nat (List.length c));
  approxPolyDP := fun c _ _ => c;
  getPerspectiveTransform := fun _ _ => tt;
  warp_gray := fun _ _ _ _ => 0;
  warp_bgr := fun _ _ _ _ => (0, 0, 0);
  clahe_apply := fun _ _ g => g;
  bilateralFilter := fun g _ _ _ => g;
  gaussian_mean := fun _ _ _ _ => 128
|}.

(** No contour in any pass: a textureless image. *)
Definition blank_cv : OpenCV := demo_cv (fun _ => []).

Definition square : list point :=
  [(0, 0); (10, 0); (10, 10); (0, 10)]%Q.

(** A square standing on a corner. *)
Definition diamond : list point :=
  [(5, 0); (10, 5); (5, 10); (0, 5)]%Q.

(** A quadrilateral collapsed to a vertical segment. *)
Definition segment : list point :=
  [(0, 0); (0, 0); (0, 7); (0, 7)]%Q.

(** A 10 x 10 page on which the first pass finds a small tile and a
    triangle, and the second pass also the sheet. *)
Definition tile : contour := [(0, 0); (2, 0); (2, 2); (0, 2)].
Definition sheet : contour := [(1, 1); (8, 1); (8, 8); (1, 8)].
Definition triangle : contour := [(0, 0); (9, 0); (0, 9)].

Definition page : image := Color (repeat (repeat (200, 200, 200) 10) 10).
Definition page_gray : raster Z := repeat (repeat 200 10) 10.

Definition page_contours (low : Z) : list contour :=
  if low =? 30 then [tile; triangle]
  else if low =? 50 then [triangle; tile; sheet]
  else [].

Definition page_cv : OpenCV := demo_cv page_contours.

Definition white_pixel : image := Color [[(255, 255, 255)]].
Definition black_pixel : image := Color [[(0, 0, 0)]].

(** ** Export: utils.py and the export branch of app.py *)

(** Exceptions of the export path: those of the processor, and the two that
    numpy indexing and Python division raise. *)
Inductive py_exn : Type :=
| Cv (e : exn)
| IndexError          (* too many indices for array *)
| ZeroDivisionError.  (* float division by zero *)

Inductive outcome (A : Type) : Type :=
| Done (a : A)
| Failed (e : py_exn).

Arguments Done {A} a.
Arguments Failed {A} e.

Definition and_then {A B : Type} (m : outcome A) (k : A -> outcome B) : outcome B :=
  match m with
  | Done a => k a
  | Failed e => Failed e
  end.

Definition lift {A : Type} (m : result A) : outcome A :=
  match m with
  | Ok a => Done a
  | Raise e => Failed (Cv e)
  end.

(** [image_array[:, :, ::-1]]: the channels of every pixel in reverse order;
    a two-dimensional array has no third axis to index. *)
Definition reverse_channels (image_array : image) : outcome (raster bgr) :=
  match image_array with
  | Gray _ => Failed IndexError
  | Color c => Done (map (map (fun p => match p with (b, g, r) => (r, g, b) end)) c)
  end.

(** What [c.drawImage(tmp_path, x, y, width=draw_width, height=draw_height)]
    receives. *)
Record placement : Type := mkPlacement {
  x : Q; y : Q; draw_width : Q; draw_height : Q
}.

(** Python's [min(a, b)]: b when b < a, else a. *)
Definition py_min (a b : Q) : Q := if Qltb b a then b else a.

(** Python's [a / n] for a float a and an int n. *)
Definition py_div (a : Q) (n : Z) : outcome Q :=
  if n =? 0 then Failed ZeroDivisionError else Done (a / inject_Z n)%Q.

(** utils.py, [save_to_pdf]: the placement of the image on the page. The
    page size [(page_width, page_height)] is reportlab's A4 in the source and
    a parameter here; the Pillow conversion, the temporary JPEG file and the
    writing of the PDF are not part of the model. [pil_image.size] is
    (width, height), the number of columns and of rows. *)
Definition save_to_pdf (page_width page_height : Q) (image_array : image)
  : outcome placement :=
  and_then (reverse_channels image_array) (fun rgb_image =>
  let margin := 28%Q in
  let max_width := (page_width - 2 * margin)%Q in
  let max_height := (page_height - 2 * margin)%Q in
  let img_width := Z.of_nat (cols rgb_image) in
  let img_height := Z.of_nat (rows rgb_image) in
  and_then (py_div max_width img_width) (fun sw =>
  and_then (py_div max_height img_height) (fun sh =>
  let scale := py_min sw sh in
  let draw_width := (inject_Z img_width * scale)%Q in
  let draw_height := (inject_Z img_height * scale)%Q in
  let x := ((page_width - draw_width) / 2)%Q in
  let y := (page_height - margin - draw_height)%Q in
  Done {| x := x; y := y; draw_width := draw_width; draw_height := draw_height |}))).

(** reportlab's [A4]: 210 mm by 297 mm in points, 1 mm = 72 / 25.4 points. *)
Definition A4 : Q * Q := (210 * (720 # 254), 297 * (720 # 254))%Q.

(** [cv2.cvtColor(src, cv2.COLOR_GRAY2BGR)]: every channel of the output is
    the gray value; OpenCV rejects an empty source and a source that is not
    single-channel. *)
Definition cvtColor_GRAY2BGR (src : image) : result image :=
  if empty src then Raise cv2_error
  else match src with
       | Gray g => Ok (Color (map (map (fun v => (v, v, v))) g))
       | Color _ => Raise cv2_error
       end.

(** app.py, the branch of the "Generate PDF" button: a two-dimensional
    result is converted to three channels before it is handed to
    [utils.save_to_pdf]. *)
Definition generate_pdf (page_width page_height : Q) (processed_image : image)
  : outcome placement :=
  and_then
    (match processed_image with
     | Gray _ => lift (cvtColor_GRAY2BGR processed_image)
     | Color _ => Done processed_image
     end)
    (fun processed_image_color =>
       save_to_pdf page_width page_height processed_image_color).

(** An axis-parallel rectangle with integer corners, listed clockwise from
    its top-left corner (x0, y0). *)
Definition rectangle (x0 y0 w h : Z) : list point :=
  [ (inject_Z x0, inject_Z y0); (inject_Z (x0 + w), inject_Z y0);
    (inject_Z (x0 + w), inject_Z (y0 + h)); (inject_Z x0, inject_Z (y0 + h)) ].

(** ** Specification vocabulary *)

(** The entry at index [i] is [v], it is the least entry for [le], and every
    entry before it is strictly greater for [lt]. *)
Definition first_extreme (le lt : Q -> Q -> Prop) (l : list Q) (i : nat) (v : Q) : Prop :=
  nth_error l i = Some v /\
  (forall w, In w l -> le v w) /\
  (forall j w, (j < i)%nat -> nth_error l j = Some w -> lt v w).

Definition Qgt' (a b : Q) : Prop := (b < a)%Q.

(** Every channel of every pixel satisfies [P]. *)
Definition all_channels (P : Z -> Prop) (img : image) : Prop :=
  match img with
  | Gray g => Forall (Forall P) g
  | Color c =>
      Forall (Forall (fun p => match p with (b, g, r) => P b /\ P g /\ P r end)) c
  end.


(** The invariant of the scans of [argmin] and [argmax]: the value [v] sits
    at index [i] of the part already read and bounds that part. *)
Definition bounds (le : Q -> Q -> Prop) (pre : list Q) (i : nat) (v : Q) : Prop :=
  nth_error pre i = Some v /\ forall x, In x pre -> le v x.

Definition Qge' (a b : Q) : Prop := (b <= a)%Q.

(** What [order_points] promises about its result: every corner is one of
    the points, the top-left and bottom-right corners have the least and the
    greatest x + y, the top-right and bottom-left corners the least and the
    greatest y - x. *)
Definition canonical (pts : list point) (r : rect) : Prop :=
  In (tl r) pts /\ In (tr r) pts /\ In (br r) pts /\ In (bl r) pts /\
  forall p, In p pts ->
    (psum (tl r) <= psum p)%Q /\ (psum p <= psum (br r))%Q /\
    (pdiff (tr r) <= pdiff p)%Q /\ (pdiff p <= pdiff (bl r))%Q.

(** The least and the greatest key among [pts] are each attained by one
    point only. *)
Definition extremes_unique (key : point -> Q) (pts : list point) : Prop :=
  forall p q, In p pts -> In q pts -> (key p == key q)%Q ->
    (forall x, In x pts -> (key p <= key x)%Q) \/
    (forall x, In x pts -> (key x <= key p)%Q) ->
    p = q.

(** A contour the locator takes for the document: its approximation has 4
    vertices and an area which, divided by the square of the scale, is at
    least [min_area], 20% of the area of the input image. *)
Definition acceptable (cv : OpenCV) (img : image) (c : contour) : Prop :=
  let approx := approx_of cv c in
  List.length approx = 4%nat /\
  (min_area_of img <= contourArea cv approx / (scale_of img * scale_of img))%Q.

(** Keys in descending order. *)
Definition key_ge {A : Type} (key : A -> Q) (a b : A) : Prop := (key b <= key a)%Q.


(** Componentwise strictly increasing threshold pairs. *)
Definition pair_lt (a b : Z * Z) : Prop := fst a < fst b /\ snd a < snd b.


(** * Properties *)

(** ** The error monad *)

Lemma bind_ok {A B : Type} (m : result A) (k : A -> result B) (b : B) :
  bind m k = Ok b -> exists a, m = Ok a /\ k a = Ok b.
Proof. destruct m as [a|e]; simpl; intros H; [eauto | discriminate]. Qed.

(** ** Comparisons on rationals *)

Lemma Qltb_true (a b : Q) : Qltb a b = true <-> (a < b)%Q.
Proof.
  unfold Qltb. rewrite negb_true_iff. split; intros H.
  - apply Qnot_le_lt. intros Hle. apply Qle_bool_iff in Hle. congruence.
  - destruct (Qle_bool b a) eqn:E; [|reflexivity].
    apply Qle_bool_iff in E. exfalso. exact (Qlt_not_le _ _ H E).
Qed.

Lemma Qltb_false (a b : Q) : Qltb a b = false <-> (b <= a)%Q.
Proof.
  unfold Qltb. rewrite negb_false_iff. apply Qle_bool_iff.
Qed.

(** ** [argmin] and [argmax] *)

Section Scan.

Variable le : Q -> Q -> Prop.
Hypothesis le_refl : forall a, le a a.
Hypothesis le_trans : forall a b c, le a b -> le b c -> le a c.

Lemma bounds_keep pre i v x :
  bounds le pre i v -> le v x -> bounds le (pre ++ [x]) i v.
Proof.
  intros [Hn Hb] Hx. split.
  - rewrite nth_error_app1; [exact Hn|]. apply nth_error_Some. congruence.
  - intros y Hy. apply in_app_or in Hy. destruct Hy as [Hy|[<-|[]]]; auto.
Qed.

Lemma bounds_replace pre i v x :
  bounds le pre i v -> le x v -> bounds le (pre ++ [x]) (List.length pre) x.
Proof.
  intros [Hn Hb] Hx. split.
  - rewrite nth_error_app2 by lia. now rewrite Nat.sub_diag.
  - intros y Hy. apply in_app_or in Hy. destruct Hy as [Hy|[<-|[]]]; eauto.
Qed.

End Scan.

Lemma argmin_from_bounds (l pre : list Q) (besti : nat) (bestv : Q) :
  bounds Qle pre besti bestv ->
  exists v, bounds Qle (pre ++ l) (argmin_from besti bestv (List.length pre) l) v.
Proof.
  revert pre besti bestv.
  induction l as [|x r IH]; intros pre besti bestv Hb; simpl.
  - rewrite app_nil_r. eauto.
  - replace (pre ++ x :: r) with ((pre ++ [x]) ++ r) by (now rewrite <- app_assoc).
    replace (S (List.length pre)) with (List.length (pre ++ [x]))
      by (rewrite length_app; simpl; lia).
    destruct (Qltb x bestv) eqn:E.
    + apply Qltb_true in E.
      assert (Hr := bounds_replace Qle Qle_refl Qle_trans pre besti bestv x Hb (Qlt_le_weak _ _ E)).
      destruct (IH (pre ++ [x]) (List.length pre) x Hr) as [v Hv].
      exists v. exact Hv.
    + apply Qltb_false in E.
      apply IH. apply bounds_keep; assumption.
Qed.

Lemma argmax_from_bounds (l pre : list Q) (besti : nat) (bestv : Q) :
  bounds Qge' pre besti bestv ->
  exists v, bounds Qge' (pre ++ l) (argmax_from besti bestv (List.length pre) l) v.
Proof.
  assert (Hrf : forall a, Qge' a a) by (intros a; apply Qle_refl).
  assert (Htr : forall a b c, Qge' a b -> Qge' b c -> Qge' a c)
    by (unfold Qge'; intros a b c H1 H2; exact (Qle_trans _ _ _ H2 H1)).
  revert pre besti bestv.
  induction l as [|x r IH]; intros pre besti bestv Hb; simpl.
  - rewrite app_nil_r. eauto.
  - replace (pre ++ x :: r) with ((pre ++ [x]) ++ r) by (now rewrite <- app_assoc).
    replace (S (List.length pre)) with (List.length (pre ++ [x]))
      by (rewrite length_app; simpl; lia).
    destruct (Qltb bestv x) eqn:E.
    + apply Qltb_true in E.
      assert (Hr := bounds_replace Qge' Hrf Htr pre besti bestv x Hb (Qlt_le_weak _ _ E)).
      destruct (IH (pre ++ [x]) (List.length pre) x Hr) as [v Hv].
      exists v. exact Hv.
    + apply Qltb_false in E.
      apply IH. apply bounds_keep; assumption.
Qed.

Lemma argmin_spec (l : list Q) :
  l <> [] -> exists i v, argmin l = Ok i /\ bounds Qle l i v.
Proof.
  destruct l as [|x r]; [congruence|]. intros _.
  destruct (argmin_from_bounds r [x] 0%nat x) as [v Hv].
  - split; [reflexivity|]. intros y [<-|[]]. apply Qle_refl.
  - exists (argmin_from 0 x 1 r), v. split; [reflexivity | exact Hv].
Qed.

Lemma argmax_spec (l : list Q) :
  l <> [] -> exists i v, argmax l = Ok i /\ bounds Qge' l i v.
Proof.
  destruct l as [|x r]; [congruence|]. intros _.
  destruct (argmax_from_bounds r [x] 0%nat x) as [v Hv].
  - split; [reflexivity|]. intros y [<-|[]]. apply Qle_refl.
  - exists (argmax_from 0 x 1 r), v. split; [reflexivity | exact Hv].
Qed.

(** The row picked through an index into [map key pts] is a point of [pts]
    whose key bounds the keys of all the points. *)
Lemma bounds_row (le : Q -> Q -> Prop) (key : point -> Q) (pts : list point) (i : nat) (v : Q) :
  bounds le (map key pts) i v ->
  In (row pts i) pts /\ forall p, In p pts -> le (key (row pts i)) (key p).
Proof.
  intros [Hn Hb]. rewrite nth_error_map in Hn.
  destruct (nth_error pts i) as [p|] eqn:E; [|discriminate].
  simpl in Hn. injection Hn as <-.
  assert (Hrow : row pts i = p) by (unfold row; now apply nth_error_nth).
  rewrite Hrow. split.
  - eapply nth_error_In; eauto.
  - intros q Hq. apply Hb. now apply in_map.
Qed.

(** ** [order_points] *)

Lemma order_points_spec (pts : list point) :
  pts <> [] -> exists r, order_points pts = Ok r /\ canonical pts r.
Proof.
  intros Hne.
  assert (Hs : map psum pts <> []) by (destruct pts; [congruence | discriminate]).
  assert (Hd : map pdiff pts <> []) by (destruct pts; [congruence | discriminate]).
  destruct (argmin_spec _ Hs) as (i0 & v0 & E0 & B0).
  destruct (argmax_spec _ Hs) as (i2 & v2 & E2 & B2).
  destruct (argmin_spec _ Hd) as (i1 & v1 & E1 & B1).
  destruct (argmax_spec _ Hd) as (i3 & v3 & E3 & B3).
  apply bounds_row in B0, B1, B2, B3.
  destruct B0 as [I0 M0], B1 as [I1 M1], B2 as [I2 M2], B3 as [I3 M3].
  unfold order_points. rewrite E0, E2, E1, E3. simpl.
  eexists. split; [reflexivity|].
  unfold canonical; simpl. repeat split; auto.
  - apply (M2 p H).
  - apply (M3 p H).
Qed.

Lemma canonical_perm (pts pts' : list point) (r : rect) :
  Permutation pts pts' -> canonical pts r -> canonical pts' r.
Proof.
  intros Hp (H0 & H1 & H2 & H3 & Hm).
  assert (Hin : forall p, In p pts -> In p pts')
    by (intros p; apply Permutation_in; exact Hp).
  assert (Hin' : forall p, In p pts' -> In p pts)
    by (intros p; apply Permutation_in, Permutation_sym; exact Hp).
  unfold canonical. repeat split; auto; apply Hm; auto.
Qed.

Lemma canonical_unique (pts : list point) (r r' : rect) :
  extremes_unique psum pts -> extremes_unique pdiff pts ->
  canonical pts r -> canonical pts r' -> r = r'.
Proof.
  intros Us Ud (H0 & H1 & H2 & H3 & Hm) (H0' & H1' & H2' & H3' & Hm').
  destruct r as [a b c d], r' as [a' b' c' d']; simpl in *.
  assert (a = a').
  { apply Us; auto.
    - apply Qle_antisym; [apply (Hm a') | apply (Hm' a)]; auto.
    - left. intros x Hx. apply (Hm x Hx). }
  assert (b = b').
  { apply Ud; auto.
    - apply Qle_antisym; [apply (Hm b') | apply (Hm' b)]; auto.
    - left. intros x Hx. apply (Hm x Hx). }
  assert (c = c').
  { apply Us; auto.
    - apply Qle_antisym; [apply (Hm' c) | apply (Hm c')]; auto.
    - right. intros x Hx. apply (Hm x Hx). }
  assert (d = d').
  { apply Ud; auto.
    - apply Qle_antisym; [apply (Hm' d) | apply (Hm d')]; auto.
    - right. intros x Hx. apply (Hm x Hx). }
  congruence.
Qed.

(** C1, as the code has it. For 4 points, [order_points] returns as top-left
    a point with the least x + y, as bottom-right one with the greatest
    x + y, as top-right one with the least y - x (the greatest x - y) and as
    bottom-left one with the greatest y - x; when the least and the greatest
    x + y and the least and the greatest y - x are each attained by one
    point only, every permutation of the points gives the same four
    corners. *)
Theorem order_points_canonical (pts : list point) :
  List.length pts = 4%nat ->
  exists r,
    order_points pts = Ok r /\ canonical pts r /\
    (extremes_unique psum pts -> extremes_unique pdiff pts ->
     forall pts', Permutation pts pts' -> order_points pts' = Ok r).
Proof.
  intros Hlen.
  assert (Hne : pts <> []) by (destruct pts; [discriminate | congruence]).
  destruct (order_points_spec pts Hne) as (r & Hr & Hc).
  exists r. split; [exact Hr|]. split; [exact Hc|].
  intros Ds Dd pts' Hp.
  assert (Hne' : pts' <> []).
  { intros ->. apply Permutation_sym, Permutation_nil in Hp. contradiction. }
  destruct (order_points_spec pts' Hne') as (r' & Hr' & Hc').
  rewrite Hr'. f_equal.
  apply (canonical_unique pts); auto.
  apply (canonical_perm pts'); [now apply Permutation_sym | assumption].
Qed.

Ltac split_members :=
  repeat match goal with
         | H : _ \/ _ |- _ => destruct H
         | H : False |- _ => destruct H
         end.

Ltac refute_extreme H lo hi :=
  destruct H as [H|H];
  [ specialize (H lo) | specialize (H hi) ];
  exfalso; (assert (Hle := H ltac:(simpl; tauto)));
  unfold Qle in Hle; simpl in Hle; lia.

Lemma square_extreme_sums : extremes_unique psum square.
Proof.
  intros p q Hp Hq He. simpl in Hp, Hq.
  split_members; subst; intros Hx; try reflexivity;
    try (vm_compute in He; discriminate);
    refute_extreme Hx (0, 0)%Q (10, 10)%Q.
Qed.

Lemma square_extreme_diffs : extremes_unique pdiff square.
Proof.
  intros p q Hp Hq He. simpl in Hp, Hq.
  split_members; subst; intros Hx; try reflexivity;
    try (vm_compute in He; discriminate);
    refute_extreme Hx (10, 0)%Q (0, 10)%Q.
Qed.

Lemma order_points_canonical_witness :
  exists r,
    order_points square = Ok r /\ canonical square r /\
    order_points (rev square) = Ok r.
Proof.
  destruct (order_points_canonical square eq_refl) as (r & Hr & Hc & Hp).
  exists r. split; [exact Hr|]. split; [exact Hc|].
  apply Hp.
  - exact square_extreme_sums.
  - exact square_extreme_diffs.
  - apply Permutation_rev.
Defined.

(** C1, as the claim words it, fails twice. On the square the top-right
    corner the code returns is (10, 0), whose x - y is the greatest of the
    four, not the least. On the square standing on a corner two points share
    each x + y and each y - x, and swapping the first two input points
    changes the corners returned. *)
Lemma order_points_claim_fails :
  (exists r p, order_points square = Ok r /\ In p square /\
               (px p - py p < px (tr r) - py (tr r))%Q) /\
  (exists pts', Permutation diamond pts' /\ order_points pts' <> order_points diamond).
Proof.
  split.
  - eexists. exists (0, 10)%Q. split; [reflexivity|]. split.
    + simpl. tauto.
    + reflexivity.
  - exists [(10, 5); (5, 0); (5, 10); (0, 5)]%Q. split.
    + unfold diamond. apply perm_swap.
    + vm_compute. intros H. discriminate H.
Qed.

(** ** Target size of the rectifier *)








(** ** Rasters *)

Lemma tabulate_shape {A : Type} (h w : nat) (f : nat -> nat -> A) :
  (0 < h)%nat -> rows (tabulate h w f) = h /\ cols (tabulate h w f) = w.
Proof.
  intros Hh. unfold rows, cols, tabulate. split.
  - now rewrite length_map, length_seq.
  - destruct h as [|h]; [lia|]. simpl. now rewrite length_map, length_seq.
Qed.

Lemma empty_false_rows (img : image) :
  empty img = false -> (0 < fst (shape img))%nat.
Proof.
  unfold empty. destruct (shape img) as [h w]. simpl.
  intros H. apply orb_false_iff in H. destruct H as [H _].
  apply Nat.eqb_neq in H. lia.
Qed.

Lemma in_mapi {A B : Type} (f : nat -> A -> B) (l : list A) (b : B) :
  In b (mapi f l) -> exists i a, In a l /\ b = f i a.
Proof.
  unfold mapi. intros H. apply in_map_iff in H.
  destruct H as ([i a] & <- & Hin). apply in_combine_r in Hin.
  exists i, a. split; [exact Hin | reflexivity].
Qed.

Lemma in_mapi2 {A B : Type} (f : nat -> nat -> A -> B) (r : raster A) (line : list B) (b : B) :
  In line (mapi2 f r) -> In b line -> exists i j a, b = f i j a.
Proof.
  unfold mapi2. intros Hl Hb.
  apply in_mapi in Hl. destruct Hl as (i & src & _ & ->).
  apply in_mapi in Hb. destruct Hb as (j & a & _ & ->).
  now exists i, j, a.
Qed.

Section PipelineFacts.

Context (cv : OpenCV).

Lemma bind_ret {A : Type} (m : result A) : bind m Ok = m.
Proof. now destruct m. Qed.

Lemma cvtColor_gray (g : raster Z) :
  cvtColor_BGR2GRAY cv (Gray g) = Raise cv2_error.
Proof. unfold cvtColor_BGR2GRAY. now destruct (empty (Gray g)). Qed.

Lemma cvtColor_color (c : raster bgr) :
  empty (Color c) = false ->
  cvtColor_BGR2GRAY cv (Color c) = Ok (map (map (luma cv)) c).
Proof. unfold cvtColor_BGR2GRAY. now intros ->. Qed.

Lemma cvtColor_ok (img : image) (g : raster Z) :
  cvtColor_BGR2GRAY cv img = Ok g ->
  empty img = false /\ exists c, img = Color c.
Proof.
  unfold cvtColor_BGR2GRAY. destruct (empty img); [discriminate|].
  destruct img as [g'|c]; [discriminate|]. eauto.
Qed.

Lemma resize_ok (img out : image) (dsize : Z * Z) :
  resize cv img dsize = Ok out ->
  empty img = false /\ channels out = channels img.
Proof.
  unfold resize. destruct dsize as [w h].
  destruct (empty img); simpl; [discriminate|].
  destruct ((w <=? 0) || (h <=? 0)); simpl; [discriminate|].
  destruct img; intros H; injection H as <-; auto.
Qed.

Lemma channels_gray (img : image) : channels img = 1%nat -> exists g, img = Gray g.
Proof. destruct img; [eauto | discriminate]. Qed.

Lemma channels_color (img : image) : channels img = 3%nat -> exists c, img = Color c.
Proof. destruct img; [discriminate | eauto]. Qed.

(** The locator's gray image exists only for a non-empty colour input. *)
Lemma locator_gray_ok (img : image) (g : raster Z) :
  locator_gray cv img = Ok g -> empty img = false /\ exists c, img = Color c.
Proof.
  unfold locator_gray. destruct (shape img) as [h w].
  destruct (1000 <? Z.of_nat h).
  - intros H. apply bind_ok in H. destruct H as (proc & Hr & H).
    apply bind_ok in H. destruct H as (gray & Hc & _).
    apply resize_ok in Hr. destruct Hr as [Hne Hch].
    apply cvtColor_ok in Hc. destruct Hc as (_ & c & ->).
    split; [exact Hne|]. apply channels_color. now rewrite <- Hch.
  - intros H. apply bind_ok in H. destruct H as (proc & Hr & H).
    injection Hr as <-.
    apply bind_ok in H. destruct H as (gray & Hc & _).
    now apply cvtColor_ok in Hc.
Qed.

Lemma resize_raise (img : image) (dsize : Z * Z) (e : exn) :
  resize cv img dsize = Raise e -> e = cv2_error.
Proof.
  unfold resize. destruct dsize as [w h].
  destruct (empty img || (w <=? 0) || (h <=? 0)).
  - congruence.
  - destruct img; discriminate.
Qed.

Lemma locator_gray_rejects_gray (g : raster Z) :
  locator_gray cv (Gray g) = Raise cv2_error.
Proof.
  unfold locator_gray. destruct (shape (Gray g)) as [h w].
  destruct (1000 <? Z.of_nat h); [|simpl; now rewrite cvtColor_gray].
  match goal with |- context [resize cv ?i ?d] =>
    destruct (resize cv i d) as [proc|e] eqn:E end; simpl.
  - apply resize_ok in E. destruct E as [_ Hch].
    apply channels_gray in Hch. destruct Hch as [g' ->].
    now rewrite cvtColor_gray.
  - apply resize_raise in E. now subst e.
Qed.

Lemma warpPerspective_ok (img : image) (M : homography cv) (w h : Z) :
  empty img = false ->
  exists out,
    warpPerspective cv img M (w, h) = Ok out /\
    channels out = channels img /\
    shape out = (if (w <=? 0) || (h <=? 0) then shape img
                 else (Z.to_nat h, Z.to_nat w)).
Proof.
  intros Hne. unfold warpPerspective. rewrite Hne.
  assert (Hrows := empty_false_rows img Hne).
  destruct ((w <=? 0) || (h <=? 0)) eqn:E.
  - destruct (shape img) as [oh ow] eqn:Es. simpl in Hrows.
    destruct img as [g|c]; eexists; (split; [reflexivity|]); (split; [reflexivity|]);
      simpl; f_equal; apply tabulate_shape; exact Hrows.
  - apply orb_false_iff in E. destruct E as [Ew Eh].
    apply Z.leb_gt in Eh.
    assert (Hh : (0 < Z.to_nat h)%nat) by lia.
    destruct img as [g|c]; eexists; (split; [reflexivity|]); (split; [reflexivity|]);
      simpl; f_equal; apply tabulate_shape; exact Hh.
Qed.

End PipelineFacts.

(** ** High Contrast *)

(** What [convertScaleAbs] with alpha = 2, beta = -50 does to a channel:
    below 25 the negative value 2v - 50 is folded to 50 - 2v by the absolute
    value; from 25 on it is 2v - 50, saturated at 255. *)
Lemma high_contrast_channel (v : Z) :
  0 <= v <= 255 ->
  convertScaleAbs_px 2 (-50) v =
    if v <? 25 then 50 - 2 * v else Z.min 255 (2 * v - 50).
Proof.
  intros Hv.
  assert (H : forall n, (n <= 255)%nat ->
            convertScaleAbs_px 2 (-50) (Z.of_nat n) =
            if Z.of_nat n <? 25 then 50 - 2 * Z.of_nat n
            else Z.min 255 (2 * Z.of_nat n - 50)).
  { intros n Hn.
    do 256 (destruct n as [|n]; [vm_compute; reflexivity|]). lia. }
  rewrite <- (Z2Nat.id v) by lia. apply H. lia.
Qed.

(** C2, the upper half of the claim: from 153 on a channel saturates. *)
Lemma high_contrast_saturates (v : Z) :
  153 <= v <= 255 -> convertScaleAbs_px 2 (-50) v = 255.
Proof.
  intros Hv. rewrite high_contrast_channel by lia.
  destruct (v <? 25) eqn:E; [apply Z.ltb_lt in E; lia | lia].
Qed.

(** C2, where the code departs from the claim: a black pixel does not stay
    black in High Contrast mode, it comes out as 50. *)
Theorem high_contrast_black_pixel (cv : OpenCV) :
  process_image cv black_pixel false "High Contrast" = Ok (Color [[(50, 50, 50)]]).
Proof. reflexivity. Qed.

(** ** Enhancement modes and channel counts *)

(** C3, as the code has it. On a non-empty raster, Original and High
    Contrast succeed and keep the channel count; Grayscale and Scan succeed
    on a 3-channel raster and return a single-channel one, and raise on a
    single-channel raster, which the colour conversion rejects. *)
Theorem enhancement_modes_by_channel_count (cv : OpenCV) (img : image) :
  empty img = false ->
  (exists out, process_image cv img false "Original" = Ok out /\
               channels out = channels img) /\
  (exists out, process_image cv img false "High Contrast" = Ok out /\
               channels out = channels img) /\
  match img with
  | Color _ =>
      (exists out, process_image cv img false "Grayscale" = Ok out /\
                   channels out = 1%nat) /\
      (exists out, process_image cv img false "Scan" = Ok out /\
                   channels out = 1%nat)
  | Gray _ =>
      process_image cv img false "Grayscale" = Raise cv2_error /\
      process_image cv img false "Scan" = Raise cv2_error
  end.
Proof.
  intros Hne. split; [|split].
  - exists img. split; reflexivity.
  - eexists. split; [reflexivity|]. now destruct img.
  - destruct img as [g|c].
    + unfold process_image, perspective_stage, enhance_stage, apply_adaptive_threshold.
      simpl. rewrite cvtColor_gray. split; reflexivity.
    + unfold process_image, perspective_stage, enhance_stage, apply_adaptive_threshold.
      simpl. rewrite (cvtColor_color cv c Hne). simpl.
      split; eexists; split; reflexivity.
Qed.

Lemma enhancement_modes_by_channel_count_witness :
  (exists out, process_image blank_cv (Gray [[7]]) false "Original" = Ok out /\
               channels out = 1%nat) /\
  (exists out, process_image blank_cv (Gray [[7]]) false "High Contrast" = Ok out /\
               channels out = 1%nat) /\
  process_image blank_cv (Gray [[7]]) false "Grayscale" = Raise cv2_error /\
  process_image blank_cv (Gray [[7]]) false "Scan" = Raise cv2_error.
Proof.
  exact (enhancement_modes_by_channel_count blank_cv (Gray [[7]]) eq_refl).
Defined.

(** C3, as the claim words it, fails: a single-channel raster is rejected by
    Grayscale mode and by Scan mode. *)
Lemma grayscale_input_is_rejected :
  is_ok (process_image blank_cv (Gray [[7]]) false "Grayscale") = false /\
  is_ok (process_image blank_cv (Gray [[7]]) false "Scan") = false.
Proof. split; reflexivity. Qed.

(** ** Unrecognised modes *)

(** C10. A mode string other than "Grayscale", "Scan" and "High Contrast"
    selects no enhancement: the result is the working image, as for
    "Original"; with perspective correction off it is the input itself. *)
Theorem unrecognised_mode_is_original (cv : OpenCV) (img : image) (up : bool) (mode : string) :
  mode <> "Grayscale"%string -> mode <> "Scan"%string ->
  mode <> "High Contrast"%string ->
  process_image cv img up mode = perspective_stage cv img up /\
  process_image cv img up mode = process_image cv img up "Original" /\
  process_image cv img false mode = Ok img.
Proof.
  intros Hg Hs Hh.
  apply String.eqb_neq in Hg, Hs, Hh.
  assert (E : forall out, enhance_stage cv out mode = Ok out).
  { intros out. unfold enhance_stage. now rewrite Hg, Hs, Hh. }
  assert (P : forall u, process_image cv img u mode = perspective_stage cv img u).
  { intros u. unfold process_image.
    destruct (perspective_stage cv img u); simpl; [apply E | reflexivity]. }
  split; [apply P|]. split; [|apply P].
  rewrite P. unfold process_image.
  destruct (perspective_stage cv img up); reflexivity.
Qed.

Lemma unrecognised_mode_is_original_witness :
  process_image blank_cv white_pixel true "HighContrast" =
    perspective_stage blank_cv white_pixel true /\
  process_image blank_cv white_pixel true "HighContrast" =
    process_image blank_cv white_pixel true "Original" /\
  process_image blank_cv white_pixel false "HighContrast" = Ok white_pixel.
Proof.
  apply (unrecognised_mode_is_original blank_cv white_pixel true "HighContrast");
    discriminate.
Defined.

(** ** Scan mode *)

Lemma adaptiveThreshold_two_level (cv : OpenCV) (src : raster Z) (n : nat) (C : Z)
      (line : list Z) (v : Z) :
  In line (adaptiveThreshold cv src 255 n C) -> In v line -> v = 0 \/ v = 255.
Proof.
  unfold adaptiveThreshold. intros Hl Hv.
  destruct (in_mapi2 _ _ _ _ Hl Hv) as (i & j & a & ->).
  destruct (- C <? a - gaussian_mean cv src n i j); auto.
Qed.

Lemma apply_adaptive_threshold_ok (cv : OpenCV) (img out : image) :
  apply_adaptive_threshold cv img = Ok out ->
  exists g, out = Gray g /\
    forall line v, In line g -> In v line -> v = 0 \/ v = 255.
Proof.
  unfold apply_adaptive_threshold. intros H.
  apply bind_ok in H. destruct H as (gray & _ & H). injection H as <-.
  eexists. split; [reflexivity|].
  intros line v. apply adaptiveThreshold_two_level.
Qed.

Lemma process_image_rejects_gray_scan (cv : OpenCV) (g : raster Z) (up : bool) :
  process_image cv (Gray g) up "Scan" = Raise cv2_error.
Proof.
  unfold process_image, perspective_stage. destruct up.
  - unfold find_document_contour, find_document_contour_run.
    now rewrite locator_gray_rejects_gray.
  - simpl. unfold enhance_stage, apply_adaptive_threshold. simpl.
    now rewrite cvtColor_gray.
Qed.

(** C9, as the code has it. The output of Scan mode is a single-channel
    raster whose pixels are 0 or 255, and Scan mode applied to that output
    raises: its colour conversion rejects a single-channel raster. *)
Theorem scan_output_is_two_level_and_not_rescannable
        (cv : OpenCV) (img out : image) (up : bool) :
  process_image cv img up "Scan" = Ok out ->
  (exists g, out = Gray g /\
     forall line v, In line g -> In v line -> v = 0 \/ v = 255) /\
  forall up', process_image cv out up' "Scan" = Raise cv2_error.
Proof.
  intros H. unfold process_image in H.
  apply bind_ok in H. destruct H as (work & _ & H).
  unfold enhance_stage in H. simpl in H.
  apply apply_adaptive_threshold_ok in H. destruct H as (g & -> & Hg).
  split; [eauto|]. intros up'. apply process_image_rejects_gray_scan.
Qed.

Lemma scan_output_is_two_level_and_not_rescannable_witness :
  process_image blank_cv white_pixel false "Scan" = Ok (Gray [[255]]) /\
  (exists g, Gray [[255]] = Gray g /\
     forall line v, In line g -> In v line -> v = 0 \/ v = 255) /\
  forall up', process_image blank_cv (Gray [[255]]) up' "Scan" = Raise cv2_error.
Proof.
  split; [reflexivity|].
  apply (scan_output_is_two_level_and_not_rescannable
           blank_cv white_pixel (Gray [[255]]) false).
  reflexivity.
Defined.

(** C9, as the claim words it, fails: Scan mode applied once gives a
    raster, applied to that raster it gives an error, not the raster. *)
Lemma scan_twice_is_not_scan_once :
  exists once,
    process_image blank_cv white_pixel false "Scan" = Ok once /\
    process_image blank_cv once false "Scan" <> Ok once.
Proof.
  exists (Gray [[255]]). split; [reflexivity|]. discriminate.
Qed.

(** ** Fallback when no document is found *)

Lemma enhance_stage_color_ok (cv : OpenCV) (c : raster bgr) (mode : string) :
  empty (Color c) = false -> exists out, enhance_stage cv (Color c) mode = Ok out.
Proof.
  intros Hne. unfold enhance_stage, apply_adaptive_threshold.
  rewrite (cvtColor_color cv c Hne). simpl.
  destruct (mode =? "Grayscale")%string; [eauto|].
  destruct (mode =? "Scan")%string; [eauto|].
  destruct (mode =? "High Contrast")%string; eauto.
Qed.

(** C4. When the locator returns None, [process_image] with perspective
    correction on returns what the selected mode makes of the input image
    itself, the same as with perspective correction off, and it is a
    result, not an error. *)
Theorem not_found_falls_back_to_input (cv : OpenCV) (img : image) (mode : string) :
  find_document_contour cv img = Ok None ->
  process_image cv img true mode = enhance_stage cv img mode /\
  process_image cv img true mode = process_image cv img false mode /\
  exists out, process_image cv img true mode = Ok out.
Proof.
  intros H.
  assert (P : process_image cv img true mode = enhance_stage cv img mode).
  { unfold process_image, perspective_stage. now rewrite H. }
  split; [exact P|]. split; [exact P|]. rewrite P.
  unfold find_document_contour, find_document_contour_run in H.
  apply bind_ok in H. destruct H as (run & H & _).
  apply bind_ok in H. destruct H as (gray & H & _).
  apply locator_gray_ok in H. destruct H as (Hne & c & ->).
  now apply enhance_stage_color_ok.
Qed.

Lemma not_found_falls_back_to_input_witness :
  find_document_contour blank_cv white_pixel = Ok None /\
  process_image blank_cv white_pixel true "Scan" =
    enhance_stage blank_cv white_pixel "Scan" /\
  process_image blank_cv white_pixel true "Scan" =
    process_image blank_cv white_pixel false "Scan" /\
  exists out, process_image blank_cv white_pixel true "Scan" = Ok out.
Proof.
  split; [reflexivity|].
  apply (not_found_falls_back_to_input blank_cv white_pixel "Scan").
  reflexivity.
Defined.

(** ** Degenerate quadrilaterals *)

(** C5, as the code has it. [four_point_transform] does not look at the
    width and height it computes: for a non-empty image and 4 points it
    raises nothing, also when the width or the height is 0; the raster it
    then returns is the one the warp allocates for an empty size, which has
    the shape and the channels of the input image. *)
Theorem four_point_transform_has_no_size_check
        (cv : OpenCV) (img : image) (pts : list point) (r : rect) :
  empty img = false ->
  order_points pts = Ok r ->
  maxWidth r = 0 \/ maxHeight r = 0 ->
  exists out,
    four_point_transform cv img pts = Ok out /\
    shape out = shape img /\ channels out = channels img.
Proof.
  intros Hne Hr Hz. unfold four_point_transform. rewrite Hr. simpl.
  destruct (warpPerspective_ok cv img
              (getPerspectiveTransform cv r (dst_corners (maxWidth r) (maxHeight r)))
              (maxWidth r) (maxHeight r) Hne) as (out & Ho & Hc & Hs).
  exists out. split; [exact Ho|]. split; [|exact Hc].
  rewrite Hs.
  assert (E : (maxWidth r <=? 0) || (maxHeight r <=? 0) = true).
  { apply orb_true_iff. destruct Hz as [-> | ->]; [left | right]; reflexivity. }
  now rewrite E.
Qed.

Lemma four_point_transform_has_no_size_check_witness :
  exists out,
    four_point_transform blank_cv white_pixel segment = Ok out /\
    shape out = shape white_pixel /\ channels out = channels white_pixel.
Proof.
  apply (four_point_transform_has_no_size_check blank_cv white_pixel segment
           {| tl := (0, 0)%Q; tr := (0, 0)%Q; br := (0, 7)%Q; bl := (0, 7)%Q |}).
  - reflexivity.
  - reflexivity.
  - left. reflexivity.
Defined.

(** With a positive width and height the rectified raster has exactly that
    size. *)
Lemma four_point_transform_shape
      (cv : OpenCV) (img : image) (pts : list point) (r : rect) :
  empty img = false ->
  order_points pts = Ok r ->
  0 < maxWidth r -> 0 < maxHeight r ->
  exists out,
    four_point_transform cv img pts = Ok out /\
    shape out = (Z.to_nat (maxHeight r), Z.to_nat (maxWidth r)) /\
    channels out = channels img.
Proof.
  intros Hne Hr Hw Hh. unfold four_point_transform. rewrite Hr. simpl.
  destruct (warpPerspective_ok cv img
              (getPerspectiveTransform cv r (dst_corners (maxWidth r) (maxHeight r)))
              (maxWidth r) (maxHeight r) Hne) as (out & Ho & Hc & Hs).
  exists out. split; [exact Ho|]. split; [|exact Hc].
  rewrite Hs.
  assert (E : (maxWidth r <=? 0) || (maxHeight r <=? 0) = false).
  { apply orb_false_iff. split; apply Z.leb_gt; assumption. }
  now rewrite E.
Qed.

(** C5, as the claim words it, fails: the four points of a vertical segment
    give width 0, and the rectifier returns a raster, not an error. *)
Lemma degenerate_quadrilateral_is_not_rejected :
  exists r,
    order_points segment = Ok r /\ maxWidth r = 0 /\
    is_ok (four_point_transform blank_cv white_pixel segment) = true.
Proof.
  eexists. split; [reflexivity|]. split; reflexivity.
Qed.

(** ** The stable descending sort *)

Section SortedDesc.

Context {A : Type} (key : A -> Q).

Lemma insert_desc_perm (x : A) (l : list A) :
  Permutation (x :: l) (insert_desc key x l).
Proof.
  induction l as [|y r IH]; simpl; [reflexivity|].
  destruct (Qltb (key x) (key y)); [|reflexivity].
  rewrite perm_swap. now apply perm_skip.
Qed.

Lemma sorted_desc_perm (l : list A) : Permutation l (sorted_desc key l).
Proof.
  induction l as [|x r IH]; simpl; [reflexivity|].
  rewrite <- insert_desc_perm. now apply perm_skip.
Qed.

Lemma insert_desc_sorted (x : A) (l : list A) :
  StronglySorted (key_ge key) l -> StronglySorted (key_ge key) (insert_desc key x l).
Proof.
  induction l as [|y r IH]; intros Hs; simpl.
  - repeat constructor.
  - apply StronglySorted_inv in Hs. destruct Hs as [Hr Hy].
    destruct (Qltb (key x) (key y)) eqn:E.
    + apply Qltb_true in E. constructor; [now apply IH|].
      apply (Permutation_Forall (insert_desc_perm x r)).
      constructor; [apply Qlt_le_weak, E | exact Hy].
    + apply Qltb_false in E. constructor; [now constructor|].
      constructor; [exact E|].
      eapply Forall_impl; [|exact Hy].
      intros z Hz. unfold key_ge in *. eapply Qle_trans; eassumption.
Qed.

Lemma sorted_desc_sorted (l : list A) : StronglySorted (key_ge key) (sorted_desc key l).
Proof.
  induction l as [|x r IH]; simpl; [constructor | now apply insert_desc_sorted].
Qed.



End SortedDesc.

(** ** The locator *)

Lemma scale_of_pos (img : image) : (0 < scale_of img)%Q.
Proof.
  unfold scale_of. destruct (shape img) as [h w].
  destruct (1000 <? Z.of_nat h) eqn:E; [|reflexivity].
  apply Z.ltb_lt in E.
  apply Qlt_shift_div_l.
  - unfold Qlt; simpl. lia.
  - reflexivity.
Qed.

Section Locator.

Context (cv : OpenCV) (img : image).

(** The two tests of the loop body say that the contour is acceptable. *)
Lemma accepts_acceptable (c : contour) :
  accepts cv (min_area_of img) (scale_of img) (approx_of cv c) = true <-> acceptable cv img c.
Proof.
  assert (Hs : (0 < (scale_of img) * (scale_of img))%Q)
    by (apply Qmult_lt_0_compat; apply scale_of_pos).
  unfold accepts, acceptable. rewrite andb_true_iff, Nat.eqb_eq, Qle_bool_iff.
  split; intros [Hl Ha]; (split; [exact Hl|]).
  - now apply Qle_shift_div_l.
  - apply (Qmult_le_compat_r _ _ ((scale_of img) * (scale_of img))) in Ha; [|now apply Qlt_le_weak].
    eapply Qle_trans; [exact Ha|].
    unfold Qdiv. rewrite <- Qmult_assoc, (Qmult_comm (/ _)), Qmult_inv_r.
    + rewrite Qmult_1_r. apply Qle_refl.
    + intros H. rewrite H in Hs. discriminate.
Qed.

Lemma not_accepts_acceptable (c : contour) :
  accepts cv (min_area_of img) (scale_of img) (approx_of cv c) = false <-> ~ acceptable cv img c.
Proof.
  rewrite <- accepts_acceptable. now destruct (accepts _ _ _ _).
Qed.

(** The inner loop returns the first acceptable contour of its list. *)
Lemma scan_contours_spec (cnts : list contour) :
  match scan_contours cv (min_area_of img) (scale_of img) cnts with
  | Some quad =>
      exists before c after,
        cnts = before ++ c :: after /\
        (forall c', In c' before -> ~ acceptable cv img c') /\
        acceptable cv img c /\ quad = rescale (approx_of cv c) (scale_of img)
  | None => forall c, In c cnts -> ~ acceptable cv img c
  end.
Proof.
  induction cnts as [|c rest IH]; simpl.
  - intros c [].
  - destruct (accepts cv (min_area_of img) (scale_of img) (approx_of cv c)) eqn:E.
    + exists [], c, rest. split; [reflexivity|]. split; [intros c' []|].
      split; [now apply accepts_acceptable | reflexivity].
    + apply not_accepts_acceptable in E.
      destruct (scan_contours cv (min_area_of img) (scale_of img) rest) as [quad|].
      * destruct IH as (before & c0 & after & -> & Hb & Hc & Hq).
        exists (c :: before), c0, after. split; [reflexivity|].
        split; [|now split].
        intros c' [<-|Hin]; [exact E | now apply Hb].
      * intros c' [<-|Hin]; [exact E | now apply IH].
Qed.

(** The outer loop runs the pairs in order up to the first pass whose inner
    loop returns a quadrilateral, and no pair after it. *)
Lemma canny_loop_spec (gray : raster Z) (pairs : list (Z * Z)) :
  let pass := fun canny => scan_contours cv (min_area_of img) (scale_of img) (candidates cv gray canny) in
  match canny_loop cv gray (min_area_of img) (scale_of img) pairs with
  | (ran, Some quad) =>
      exists failed hit rest,
        pairs = failed ++ hit :: rest /\ ran = failed ++ [hit] /\
        (forall canny, In canny failed -> pass canny = None) /\
        pass hit = Some quad
  | (ran, None) =>
      ran = pairs /\ forall canny, In canny pairs -> pass canny = None
  end.
Proof.
  intros pass. induction pairs as [|canny rest IH]; simpl.
  - split; [reflexivity | intros c []].
  - fold (pass canny). destruct (pass canny) as [quad|] eqn:E.
    + exists [], canny, rest. repeat split; auto. intros c [].
    + destruct (canny_loop cv gray (min_area_of img) (scale_of img) rest) as [ran [quad|]].
      * destruct IH as (failed & hit & rest' & -> & -> & Hf & Hh).
        exists (canny :: failed), hit, rest'. repeat split; auto.
        intros c [<-|Hin]; [exact E | now apply Hf].
      * destruct IH as [-> Hn]. split; [reflexivity|].
        intros c [<-|Hin]; [exact E | now apply Hn].
Qed.

End Locator.

Lemma find_document_contour_unfold (cv : OpenCV) (img : image) (gray : raster Z) :
  locator_gray cv img = Ok gray ->
  find_document_contour_run cv img =
    Ok (canny_loop cv gray (min_area_of img) (scale_of img) canny_pairs) /\
  find_document_contour cv img =
    Ok (snd (canny_loop cv gray (min_area_of img) (scale_of img) canny_pairs)).
Proof.
  intros H. unfold find_document_contour, find_document_contour_run.
  rewrite H. split; reflexivity.
Qed.



(** C7. The edge detector is tried with the 3 threshold pairs (30, 100),
    (50, 150), (75, 200), strictly increasing in both thresholds; the pairs
    are run in that order up to the first one whose pass yields an
    acceptable quadrilateral, the pairs after it are not run, and the result
    is None only when all 3 pairs were run and every pass failed. *)
Theorem canny_retry_stops_at_first_success
        (cv : OpenCV) (img : image) (gray : raster Z) :
  locator_gray cv img = Ok gray ->
  let pass := fun canny =>
    scan_contours cv (min_area_of img) (scale_of img) (candidates cv gray canny) in
  List.length canny_pairs = 3%nat /\
  StronglySorted pair_lt canny_pairs /\
  exists ran res,
    find_document_contour_run cv img = Ok (ran, res) /\
    find_document_contour cv img = Ok res /\
    match res with
    | Some quad =>
        exists failed hit rest,
          canny_pairs = failed ++ hit :: rest /\ ran = failed ++ [hit] /\
          (forall canny, In canny failed -> pass canny = None) /\
          pass hit = Some quad
    | None =>
        ran = canny_pairs /\
        forall canny, In canny canny_pairs -> pass canny = None
    end.
Proof.
  intros Hg pass.
  split; [reflexivity|]. split.
  { unfold canny_pairs, pair_lt. repeat constructor; simpl; lia. }
  destruct (find_document_contour_unfold cv img gray Hg) as [Hrun Hres].
  assert (Hloop := canny_loop_spec cv img gray canny_pairs). cbv zeta in Hloop.
  rewrite Hrun, Hres.
  destruct (canny_loop cv gray (min_area_of img) (scale_of img) canny_pairs)
    as [ran res].
  exists ran, res. split; [reflexivity|]. split; [reflexivity|].
  destruct res as [quad|]; exact Hloop.
Qed.

Lemma canny_retry_stops_at_first_success_witness :
  exists ran res,
    find_document_contour_run page_cv page = Ok (ran, res) /\
    find_document_contour page_cv page = Ok res /\
    ran = [(30, 100); (50, 150)] /\
    res = Some [(1, 1); (8, 1); (8, 8); (1, 8)]%Q.
Proof.
  destruct (canny_retry_stops_at_first_success page_cv page page_gray eq_refl)
    as (_ & _ & ran & res & Hrun & Hres & _).
  exists ran, res. split; [exact Hrun|]. split; [exact Hres|].
  assert (E : Ok (ran, res) =
              Ok ([(30, 100); (50, 150)], Some [(1, 1); (8, 1); (8, 8); (1, 8)]%Q))
    by (rewrite <- Hrun; reflexivity).
  injection E as -> ->. split; reflexivity.
Defined.

(** * Further properties of the code *)

(** ** [order_points] on any number of points *)


Section FirstExtreme.

Variables le lt : Q -> Q -> Prop.
Hypothesis le_refl : forall a, le a a.
Hypothesis le_trans : forall a b c, le a b -> le b c -> le a c.
Hypothesis lt_le : forall a b, lt a b -> le a b.
Hypothesis lt_le_trans : forall a b c, lt a b -> le b c -> lt a c.

Lemma first_extreme_keep pre i v x :
  first_extreme le lt pre i v -> le v x -> first_extreme le lt (pre ++ [x]) i v.
Proof.
  intros (Hn & Hb & Hf) Hx.
  assert (Hi : (i < List.length pre)%nat) by (apply nth_error_Some; congruence).
  split; [|split].
  - rewrite nth_error_app1; assumption.
  - intros w Hw. apply in_app_or in Hw. destruct Hw as [Hw|[<-|[]]]; auto.
  - intros j w Hj Hw. rewrite nth_error_app1 in Hw by lia. eauto.
Qed.

Lemma first_extreme_replace pre i v x :
  first_extreme le lt pre i v -> lt x v ->
  first_extreme le lt (pre ++ [x]) (List.length pre) x.
Proof.
  intros (Hn & Hb & Hf) Hx. split; [|split].
  - rewrite nth_error_app2 by lia. now rewrite Nat.sub_diag.
  - intros w Hw. apply in_app_or in Hw. destruct Hw as [Hw|[<-|[]]]; eauto.
  - intros j w Hj Hw. rewrite nth_error_app1 in Hw by lia.
    apply lt_le_trans with v; [exact Hx|]. apply Hb. eapply nth_error_In; eauto.
Qed.

End FirstExtreme.

Lemma Qgt'_facts :
  (forall a, Qge' a a) /\
  (forall a b c, Qge' a b -> Qge' b c -> Qge' a c) /\
  (forall a b, Qgt' a b -> Qge' a b) /\
  (forall a b c, Qgt' a b -> Qge' b c -> Qgt' a c).
Proof.
  unfold Qge', Qgt'. repeat split; intros.
  - apply Qle_refl.
  - eapply Qle_trans; eassumption.
  - now apply Qlt_le_weak.
  - eapply Qle_lt_trans; eassumption.
Qed.

Lemma argmin_from_first (l pre : list Q) (besti : nat) (bestv : Q) :
  first_extreme Qle Qlt pre besti bestv ->
  exists v, first_extreme Qle Qlt (pre ++ l)
              (argmin_from besti bestv (List.length pre) l) v.
Proof.
  revert pre besti bestv.
  induction l as [|a r IH]; intros pre besti bestv Hb; simpl.
  - rewrite app_nil_r. eauto.
  - replace (pre ++ a :: r) with ((pre ++ [a]) ++ r) by (now rewrite <- app_assoc).
    replace (S (List.length pre)) with (List.length (pre ++ [a]))
      by (rewrite length_app; simpl; lia).
    destruct (Qltb a bestv) eqn:E.
    + apply Qltb_true in E. apply IH.
      exact (first_extreme_replace Qle Qlt Qle_refl Qlt_le_weak Qlt_le_trans
               pre besti bestv a Hb E).
    + apply Qltb_false in E. apply IH.
      exact (first_extreme_keep Qle Qlt Qle_refl Qlt_le_trans pre besti bestv a Hb E).
Qed.

Lemma argmax_from_first (l pre : list Q) (besti : nat) (bestv : Q) :
  first_extreme Qge' Qgt' pre besti bestv ->
  exists v, first_extreme Qge' Qgt' (pre ++ l)
              (argmax_from besti bestv (List.length pre) l) v.
Proof.
  destruct Qgt'_facts as (Hrf & Htr & Hlt & Hlttr).
  revert pre besti bestv.
  induction l as [|a r IH]; intros pre besti bestv Hb; simpl.
  - rewrite app_nil_r. eauto.
  - replace (pre ++ a :: r) with ((pre ++ [a]) ++ r) by (now rewrite <- app_assoc).
    replace (S (List.length pre)) with (List.length (pre ++ [a]))
      by (rewrite length_app; simpl; lia).
    destruct (Qltb bestv a) eqn:E.
    + apply Qltb_true in E. apply IH.
      exact (first_extreme_replace Qge' Qgt' Hrf Hlt Hlttr pre besti bestv a Hb E).
    + apply Qltb_false in E. apply IH.
      exact (first_extreme_keep Qge' Qgt' Hrf Hlttr pre besti bestv a Hb E).
Qed.

Lemma first_extreme_single (le lt : Q -> Q -> Prop) (a : Q) :
  (forall b, le b b) -> first_extreme le lt [a] 0 a.
Proof.
  intros Hrf. split; [reflexivity|]. split.
  - intros w [<-|[]]. apply Hrf.
  - intros j w Hj. lia.
Qed.

(** [np.argmin] returns the index of the first occurrence of the least
    entry, [np.argmax] of the first occurrence of the greatest. *)
Lemma argmin_first (l : list Q) (i : nat) :
  argmin l = Ok i -> exists v, first_extreme Qle Qlt l i v.
Proof.
  destruct l as [|a r]; [discriminate|]. intros H. injection H as <-.
  apply (argmin_from_first r [a] 0%nat a).
  apply first_extreme_single. apply Qle_refl.
Qed.

Lemma argmax_first (l : list Q) (i : nat) :
  argmax l = Ok i -> exists v, first_extreme Qge' Qgt' l i v.
Proof.
  destruct l as [|a r]; [discriminate|]. intros H. injection H as <-.
  apply (argmax_from_first r [a] 0%nat a).
  apply first_extreme_single. intros b. apply Qle_refl.
Qed.

Lemma first_extreme_row (le lt : Q -> Q -> Prop) (key : point -> Q)
      (pts : list point) (i : nat) (v : Q) :
  first_extreme le lt (map key pts) i v ->
  nth_error pts i = Some (row pts i) /\
  forall j p, (j < i)%nat -> nth_error pts j = Some p -> lt (key (row pts i)) (key p).
Proof.
  intros (Hn & _ & Hf). rewrite nth_error_map in Hn.
  destruct (nth_error pts i) as [q|] eqn:E; [|discriminate].
  simpl in Hn. injection Hn as <-.
  assert (Hrow : row pts i = q) by (unfold row; now apply nth_error_nth).
  rewrite Hrow. split; [reflexivity|].
  intros j p Hj Hp. apply (Hf j (key p) Hj).
  rewrite nth_error_map, Hp. reflexivity.
Qed.

(** X2. Ties are broken by the input order: each corner [order_points] returns
    is the first point of the input with the extreme value, every point
    before it has a strictly greater x + y (top-left), a strictly smaller
    x + y (bottom-right), a strictly greater y - x (top-right), a strictly
    smaller y - x (bottom-left). *)
Theorem order_points_takes_first_on_ties (pts : list point) (r : rect) :
  order_points pts = Ok r ->
  exists i0 i1 i2 i3,
    nth_error pts i0 = Some (tl r) /\ nth_error pts i1 = Some (tr r) /\
    nth_error pts i2 = Some (br r) /\ nth_error pts i3 = Some (bl r) /\
    forall j p, nth_error pts j = Some p ->
      ((j < i0)%nat -> (psum (tl r) < psum p)%Q) /\
      ((j < i2)%nat -> (psum p < psum (br r))%Q) /\
      ((j < i1)%nat -> (pdiff (tr r) < pdiff p)%Q) /\
      ((j < i3)%nat -> (pdiff p < pdiff (bl r))%Q).
Proof.
  unfold order_points. intros H.
  apply bind_ok in H. destruct H as (i0 & E0 & H).
  apply bind_ok in H. destruct H as (i2 & E2 & H).
  apply bind_ok in H. destruct H as (i1 & E1 & H).
  apply bind_ok in H. destruct H as (i3 & E3 & H).
  injection H as <-. simpl.
  apply argmin_first in E0, E1. apply argmax_first in E2, E3.
  destruct E0 as [v0 F0], E1 as [v1 F1], E2 as [v2 F2], E3 as [v3 F3].
  apply first_extreme_row in F0, F1, F2, F3.
  destruct F0 as [N0 L0], F1 as [N1 L1], F2 as [N2 L2], F3 as [N3 L3].
  exists i0, i1, i2, i3. repeat split; eauto.
  - intros Hj. exact (L2 j p Hj H).
  - intros Hj. exact (L3 j p Hj H).
Qed.

Lemma order_points_takes_first_on_ties_witness :
  exists i0 i1 i2 i3,
    nth_error diamond i0 = Some (5, 0)%Q /\ nth_error diamond i1 = Some (5, 0)%Q /\
    nth_error diamond i2 = Some (10, 5)%Q /\ nth_error diamond i3 = Some (5, 10)%Q /\
    forall j p, nth_error diamond j = Some p ->
      ((j < i0)%nat -> (psum (5, 0)%Q < psum p)%Q) /\
      ((j < i2)%nat -> (psum p < psum (10, 5)%Q)%Q) /\
      ((j < i1)%nat -> (pdiff (5, 0)%Q < pdiff p)%Q) /\
      ((j < i3)%nat -> (pdiff p < pdiff (5, 10)%Q)%Q).
Proof.
  exact (order_points_takes_first_on_ties diamond
           {| tl := (5, 0)%Q; tr := (5, 0)%Q; br := (10, 5)%Q; bl := (5, 10)%Q |}
           eq_refl).
Defined.

(** ** [four_point_transform]: errors and output size *)

(** X3. For 4 points whose computed width and height are positive, the
    rectified raster of a non-empty image has exactly that height and width
    and the channels of the image. *)
Theorem rectified_raster_has_target_size
        (cv : OpenCV) (img : image) (pts : list point) (r : rect) :
  empty img = false ->
  order_points pts = Ok r ->
  0 < maxWidth r -> 0 < maxHeight r ->
  exists out,
    four_point_transform cv img pts = Ok out /\
    shape out = (Z.to_nat (maxHeight r), Z.to_nat (maxWidth r)) /\
    channels out = channels img.
Proof. apply four_point_transform_shape. Qed.

Lemma rectified_raster_has_target_size_witness :
  exists out,
    four_point_transform blank_cv white_pixel square = Ok out /\
    shape out = (10%nat, 10%nat) /\ channels out = 3%nat.
Proof.
  apply (rectified_raster_has_target_size blank_cv white_pixel square
           {| tl := (0, 0)%Q; tr := (10, 0)%Q; br := (10, 10)%Q; bl := (0, 10)%Q |});
    reflexivity.
Defined.


(** ** An axis-parallel rectangle is rectified to its own size *)

Lemma int_sqrt_square (n : Z) (q : Q) :
  0 <= n -> (q == inject_Z (n * n))%Q -> int_sqrt q = n.
Proof.
  intros Hn Hq. unfold int_sqrt.
  rewrite (Qfloor_comp _ _ Hq), Qfloor_Z. now apply Z.sqrt_square.
Qed.

Ltac q_arith := unfold psum, pdiff, px, py, Qle, Qlt, Qeq in *; simpl in *; lia.

Lemma rectangle_canonical (x0 y0 w h : Z) :
  0 < w -> 0 < h ->
  canonical (rectangle x0 y0 w h)
    {| tl := (inject_Z x0, inject_Z y0);
       tr := (inject_Z (x0 + w), inject_Z y0);
       br := (inject_Z (x0 + w), inject_Z (y0 + h));
       bl := (inject_Z x0, inject_Z (y0 + h)) |}.
Proof.
  intros Hw Hh. unfold canonical, rectangle; simpl.
  repeat split; try tauto;
    destruct H as [<-|[<-|[<-|[<-|[]]]]]; q_arith.
Qed.

Lemma rectangle_extreme_sums (x0 y0 w h : Z) :
  0 < w -> 0 < h -> extremes_unique psum (rectangle x0 y0 w h).
Proof.
  intros Hw Hh p q Hp Hq He. unfold rectangle in *. simpl in Hp, Hq.
  destruct Hp as [<-|[<-|[<-|[<-|[]]]]], Hq as [<-|[<-|[<-|[<-|[]]]]];
    intros Hx; try reflexivity; try (exfalso; q_arith);
    destruct Hx as [Hx|Hx];
    [ specialize (Hx (inject_Z x0, inject_Z y0))
    | specialize (Hx (inject_Z (x0 + w), inject_Z (y0 + h)))
    | specialize (Hx (inject_Z x0, inject_Z y0))
    | specialize (Hx (inject_Z (x0 + w), inject_Z (y0 + h))) ];
    exfalso; (assert (Hle := Hx ltac:(simpl; tauto))); q_arith.
Qed.

Lemma rectangle_extreme_diffs (x0 y0 w h : Z) :
  0 < w -> 0 < h -> extremes_unique pdiff (rectangle x0 y0 w h).
Proof.
  intros Hw Hh p q Hp Hq He. unfold rectangle in *. simpl in Hp, Hq.
  destruct Hp as [<-|[<-|[<-|[<-|[]]]]], Hq as [<-|[<-|[<-|[<-|[]]]]];
    intros Hx; try reflexivity; try (exfalso; q_arith);
    destruct Hx as [Hx|Hx];
    [ specialize (Hx (inject_Z (x0 + w), inject_Z y0))
    | specialize (Hx (inject_Z x0, inject_Z (y0 + h)))
    | specialize (Hx (inject_Z (x0 + w), inject_Z y0))
    | specialize (Hx (inject_Z x0, inject_Z (y0 + h))) ];
    exfalso; (assert (Hle := Hx ltac:(simpl; tauto))); q_arith.
Qed.

(** X5. The four corners of an axis-parallel w x h rectangle with integer
    coordinates, given in any order, are ordered as top-left, top-right,
    bottom-right, bottom-left of the rectangle, and a non-empty image is
    rectified to a raster of exactly h rows and w columns with the channels
    of the image. *)
Theorem rectangle_is_rectified_to_its_size
        (cv : OpenCV) (img : image) (x0 y0 w h : Z) (pts : list point) :
  0 < w -> 0 < h -> empty img = false ->
  Permutation (rectangle x0 y0 w h) pts ->
  order_points pts =
    Ok {| tl := (inject_Z x0, inject_Z y0);
          tr := (inject_Z (x0 + w), inject_Z y0);
          br := (inject_Z (x0 + w), inject_Z (y0 + h));
          bl := (inject_Z x0, inject_Z (y0 + h)) |} /\
  exists out,
    four_point_transform cv img pts = Ok out /\
    shape out = (Z.to_nat h, Z.to_nat w) /\ channels out = channels img.
Proof.
  intros Hw Hh Hne Hp.
  set (r := {| tl := (inject_Z x0, inject_Z y0);
               tr := (inject_Z (x0 + w), inject_Z y0);
               br := (inject_Z (x0 + w), inject_Z (y0 + h));
               bl := (inject_Z x0, inject_Z (y0 + h)) |}).
  assert (Hpts : pts <> []).
  { intros ->. apply Permutation_sym, Permutation_nil in Hp. discriminate. }
  destruct (order_points_spec pts Hpts) as (r' & Hr' & Hc').
  assert (Er : r' = r).
  { apply (canonical_unique (rectangle x0 y0 w h)).
    - now apply rectangle_extreme_sums.
    - now apply rectangle_extreme_diffs.
    - apply (canonical_perm pts); [now apply Permutation_sym | exact Hc'].
    - now apply rectangle_canonical. }
  subst r'. split; [exact Hr'|].
  assert (EW : maxWidth r = w).
  { unfold maxWidth, r; simpl.
    rewrite !(int_sqrt_square w); try lia;
      unfold dist2, px, py, Qeq; simpl; ring. }
  assert (EH : maxHeight r = h).
  { unfold maxHeight, r; simpl.
    rewrite !(int_sqrt_square h); try lia;
      unfold dist2, px, py, Qeq; simpl; ring. }
  destruct (four_point_transform_shape cv img pts r Hne Hr') as (out & Ho & Hs & Hch);
    try lia.
  exists out. rewrite EW, EH in Hs. auto.
Qed.

Lemma rectangle_is_rectified_to_its_size_witness :
  order_points (rev (rectangle 2 3 40 30)) =
    Ok {| tl := (inject_Z 2, inject_Z 3);
          tr := (inject_Z (2 + 40), inject_Z 3);
          br := (inject_Z (2 + 40), inject_Z (3 + 30));
          bl := (inject_Z 2, inject_Z (3 + 30)) |} /\
  exists out,
    four_point_transform blank_cv white_pixel (rev (rectangle 2 3 40 30)) = Ok out /\
    shape out = (Z.to_nat 30, Z.to_nat 40) /\ channels out = channels white_pixel.
Proof.
  apply (rectangle_is_rectified_to_its_size blank_cv white_pixel 2 3 40 30).
  - lia.
  - lia.
  - reflexivity.
  - apply Permutation_rev.
Defined.

(** ** The sort of the contours is stable *)

Lemma filter_insert_desc {A : Type} (key : A -> Q) (k : Q) (a : A) (l : list A) :
  filter (fun b => Qeq_bool (key b) k) (insert_desc key a l) =
  filter (fun b => Qeq_bool (key b) k) (a :: l).
Proof.
  induction l as [|b r IH]; [reflexivity|].
  simpl insert_desc. destruct (Qltb (key a) (key b)) eqn:E; [|reflexivity].
  apply Qltb_true in E.
  cbn [filter] in *. rewrite IH.
  destruct (Qeq_bool (key a) k) eqn:Ea, (Qeq_bool (key b) k) eqn:Eb; try reflexivity.
  apply Qeq_bool_iff in Ea, Eb. exfalso.
  rewrite Ea, Eb in E. exact (Qlt_irrefl _ E).
Qed.

(** X6. [sorted(cnts, key=cv2.contourArea, reverse=True)] rearranges the
    contours, puts them in descending order of area, and keeps contours of
    equal area in the order in which they were found. *)
Theorem sorted_desc_is_stable {A : Type} (key : A -> Q) (l : list A) :
  Permutation l (sorted_desc key l) /\
  StronglySorted (key_ge key) (sorted_desc key l) /\
  forall k, filter (fun b => Qeq_bool (key b) k) (sorted_desc key l) =
            filter (fun b => Qeq_bool (key b) k) l.
Proof.
  split; [apply sorted_desc_perm|]. split; [apply sorted_desc_sorted|].
  intros k. induction l as [|a r IH]; [reflexivity|].
  simpl sorted_desc. rewrite filter_insert_desc. cbn [filter]. now rewrite IH.
Qed.

(** ** What the locator returns and rejects *)

Lemma scale_of_le_1 (img : image) : (scale_of img <= 1)%Q.
Proof.
  unfold scale_of. destruct (shape img) as [h w].
  destruct (1000 <? Z.of_nat h) eqn:E; [|apply Qle_refl].
  apply Z.ltb_lt in E. apply Qle_shift_div_r.
  - unfold Qlt; simpl. lia.
  - rewrite Qmult_1_l. change (1000 # 1) with (inject_Z 1000).
    rewrite <- Zle_Qle. lia.
Qed.

Lemma length_rescale (approx : contour) (s : Q) :
  List.length (rescale approx s) = List.length approx.
Proof. unfold rescale. apply length_map. Qed.

Lemma located_quadrilateral_facts
      (cv : OpenCV) (img : image) (quad : list point) :
  find_document_contour cv img = Ok (Some quad) ->
  List.length quad = 4%nat /\
  (exists approx : contour,
     List.length approx = 4%nat /\ quad = rescale approx (scale_of img)) /\
  (0 < scale_of img <= 1)%Q /\
  ((fst (shape img) <= 1000)%nat -> scale_of img = 1%Q).
Proof.
  intros H.
  destruct (locator_gray cv img) as [gray|e] eqn:Hg.
  2:{ unfold find_document_contour, find_document_contour_run in H.
      rewrite Hg in H. discriminate. }
  destruct (find_document_contour_unfold cv img gray Hg) as [_ Hf].
  rewrite Hf in H.
  assert (Hloop := canny_loop_spec cv img gray canny_pairs). cbv zeta in Hloop.
  destruct (canny_loop cv gray (min_area_of img) (scale_of img) canny_pairs)
    as [ran res].
  cbn [snd] in H. injection H as ->.
  destruct Hloop as (failed & hit & rest & _ & _ & _ & Hh).
  assert (Hs := scan_contours_spec cv img (candidates cv gray hit)).
  rewrite Hh in Hs. destruct Hs as (before & c & after & _ & _ & [Hlen _] & ->).
  split; [now rewrite length_rescale|]. split; [eauto|].
  split; [split; [apply scale_of_pos | apply scale_of_le_1]|].
  unfold scale_of. destruct (shape img) as [h w]. simpl. intros Hh'.
  destruct (1000 <? Z.of_nat h) eqn:E; [apply Z.ltb_lt in E; lia | reflexivity].
Qed.

(** X7. A quadrilateral the locator returns has exactly 4 points: the vertices
    of a 4-vertex approximation, divided by the scale, which is positive and
    at most 1, and equal to 1 for an image of height at most 1000. *)
Theorem located_quadrilateral_has_four_points
        (cv : OpenCV) (img : image) (quad : list point) :
  find_document_contour cv img = Ok (Some quad) ->
  List.length quad = 4%nat /\
  (exists approx : contour,
     List.length approx = 4%nat /\ quad = rescale approx (scale_of img)) /\
  (0 < scale_of img <= 1)%Q /\
  ((fst (shape img) <= 1000)%nat -> scale_of img = 1%Q).
Proof. apply located_quadrilateral_facts. Qed.

Lemma located_quadrilateral_has_four_points_witness :
  List.length [(1, 1); (8, 1); (8, 8); (1, 8)]%Q = 4%nat /\
  (exists approx : contour,
     List.length approx = 4%nat /\
     [(1, 1); (8, 1); (8, 8); (1, 8)]%Q = rescale approx (scale_of page)) /\
  (0 < scale_of page <= 1)%Q /\
  ((fst (shape page) <= 1000)%nat -> scale_of page = 1%Q).
Proof.
  exact (located_quadrilateral_has_four_points page_cv page
           [(1, 1); (8, 1); (8, 8); (1, 8)]%Q eq_refl).
Defined.

Lemma locator_gray_raise (cv : OpenCV) (img : image) (e : exn) :
  locator_gray cv img = Raise e -> e = cv2_error.
Proof.
  unfold locator_gray. destruct (shape img) as [h w].
  assert (Hc : forall i e', cvtColor_BGR2GRAY cv i = Raise e' -> e' = cv2_error).
  { intros i e'. unfold cvtColor_BGR2GRAY.
    destruct (empty i); [congruence|]. destruct i; [congruence | discriminate]. }
  destruct (1000 <? Z.of_nat h).
  - match goal with |- context [resize cv ?i ?d] =>
      destruct (resize cv i d) as [proc|e'] eqn:E end; simpl.
    + destruct (cvtColor_BGR2GRAY cv proc) eqn:Ec; simpl; [discriminate|].
      intros H. injection H as <-. eapply Hc; eauto.
    + apply resize_raise in E. congruence.
  - simpl. destruct (cvtColor_BGR2GRAY cv img) eqn:Ec; simpl; [discriminate|].
    intros H. injection H as <-. eapply Hc; eauto.
Qed.

(** With perspective correction on, an image that is single-channel or
    empty makes [process_image] raise an OpenCV error in every mode, the
    modes that change nothing included: the locator converts its input from
    colour to gray before anything else. *)
Theorem perspective_rejects_gray_and_empty
        (cv : OpenCV) (img : image) (mode : string) :
  channels img = 1%nat \/ empty img = true ->
  find_document_contour cv img = Raise cv2_error /\
  process_image cv img true mode = Raise cv2_error.
Proof.
  intros Hbad.
  assert (Hg : locator_gray cv img = Raise cv2_error).
  { destruct (locator_gray cv img) as [g|e] eqn:E.
    - apply locator_gray_ok in E. destruct E as (Hne & c & ->).
      destruct Hbad as [H|H]; [discriminate | congruence].
    - apply locator_gray_raise in E. now subst e. }
  assert (Hf : find_document_contour cv img = Raise cv2_error).
  { unfold find_document_contour, find_document_contour_run. now rewrite Hg. }
  split; [exact Hf|].
  unfold process_image, perspective_stage. now rewrite Hf.
Qed.

Lemma perspective_rejects_gray_and_empty_witness :
  find_document_contour blank_cv (Gray [[7]]) = Raise cv2_error /\
  process_image blank_cv (Gray [[7]]) true "Original" = Raise cv2_error.
Proof.
  apply (perspective_rejects_gray_and_empty blank_cv (Gray [[7]]) "Original").
  left. reflexivity.
Defined.

(** ** The enhancer without perspective correction *)

Lemma cols_map {A B : Type} (f : list A -> list B) (r : raster A) :
  (forall line, List.length (f line) = List.length line) ->
  cols (map f r) = cols r.
Proof. intros Hf. destruct r as [|line r]; [reflexivity | apply Hf]. Qed.

Lemma shape_map_gray (f : bgr -> Z) (c : raster bgr) :
  shape (Gray (map (map f) c)) = shape (Color c).
Proof.
  simpl. f_equal; [apply length_map | apply cols_map; intros; apply length_map].
Qed.

Lemma saturate_u8_range (z : Z) : 0 <= saturate_u8 z <= 255.
Proof. unfold saturate_u8. lia. Qed.

Lemma increase_contrast_facts (img : image) (alpha beta : Q) :
  shape (increase_contrast img alpha beta) = shape img /\
  channels (increase_contrast img alpha beta) = channels img /\
  all_channels (fun v => 0 <= v <= 255) (increase_contrast img alpha beta).
Proof.
  unfold increase_contrast, convertScaleAbs.
  destruct img as [g|c]; simpl.
  - split; [|split; [reflexivity|]].
    + f_equal; [apply length_map | apply cols_map; intros; apply length_map].
    + apply Forall_forall. intros line Hl.
      apply in_map_iff in Hl. destruct Hl as (src & <- & _).
      apply Forall_forall. intros v Hv.
      apply in_map_iff in Hv. destruct Hv as (u & <- & _).
      apply saturate_u8_range.
  - split; [|split; [reflexivity|]].
    + f_equal; [apply length_map | apply cols_map; intros; apply length_map].
    + apply Forall_forall. intros line Hl.
      apply in_map_iff in Hl. destruct Hl as (src & <- & _).
      apply Forall_forall. intros v Hv.
      apply in_map_iff in Hv. destruct Hv as ([[b g] r] & <- & _).
      repeat split; apply saturate_u8_range.
Qed.


(** X10. With perspective correction off, every mode string succeeds on a
    non-empty colour raster, and every mode but "Scan" returns a raster of
    the height and width of the input. *)
Theorem modes_keep_the_size_of_a_colour_image
        (cv : OpenCV) (c : raster bgr) (mode : string) :
  empty (Color c) = false ->
  exists out,
    process_image cv (Color c) false mode = Ok out /\
    (mode <> "Scan"%string -> shape out = shape (Color c)).
Proof.
  intros Hne. unfold process_image, perspective_stage. simpl.
  unfold enhance_stage, apply_adaptive_threshold.
  rewrite (cvtColor_color cv c Hne). simpl.
  destruct (mode =? "Grayscale")%string eqn:Eg.
  - eexists. split; [reflexivity|]. intros _. apply shape_map_gray.
  - destruct (mode =? "Scan")%string eqn:Es.
    + eexists. split; [reflexivity|]. intros H.
      apply String.eqb_eq in Es. contradiction.
    + destruct (mode =? "High Contrast")%string.
      * eexists. split; [reflexivity|]. intros _.
        exact (proj1 (increase_contrast_facts (Color c) 2 (-50))).
      * eexists. split; [reflexivity|]. reflexivity.
Qed.

Lemma modes_keep_the_size_of_a_colour_image_witness :
  exists out,
    process_image blank_cv page false "Grayscale" = Ok out /\
    ("Grayscale"%string <> "Scan"%string -> shape out = shape page).
Proof.
  apply (modes_keep_the_size_of_a_colour_image blank_cv
           (repeat (repeat (200, 200, 200) 10) 10) "Grayscale").
  reflexivity.
Defined.

(** ** High Contrast on one channel *)

(** X12. High Contrast mode maps a channel value v of 0..255 to 50 - 2v when
    v < 25 and to min(255, 2v - 50) otherwise: the values below 25 are not
    clipped to 0 but mirrored upwards, and the mode is not monotone. *)
Theorem high_contrast_channel_map (v : Z) :
  0 <= v <= 255 ->
  convertScaleAbs_px 2 (-50) v =
    (if v <? 25 then 50 - 2 * v else Z.min 255 (2 * v - 50)) /\
  (v < 25 -> convertScaleAbs_px 2 (-50) (v + 1) < convertScaleAbs_px 2 (-50) v).
Proof.
  intros Hv. split; [now apply high_contrast_channel|].
  intros Hd. rewrite !high_contrast_channel by lia.
  destruct (Z.ltb_spec v 25), (Z.ltb_spec (v + 1) 25); lia.
Qed.

Lemma high_contrast_channel_map_witness :
  convertScaleAbs_px 2 (-50) 10 =
    (if 10 <? 25 then 50 - 2 * 10 else Z.min 255 (2 * 10 - 50)) /\
  (10 < 25 -> convertScaleAbs_px 2 (-50) (10 + 1) < convertScaleAbs_px 2 (-50) 10).
Proof. apply (high_contrast_channel_map 10). lia. Defined.

(** X13. High Contrast applied to its own output changes a channel unless the
    channel was 0, 50 or at least 153 to begin with. *)
Theorem high_contrast_twice (v : Z) :
  0 <= v <= 255 ->
  (convertScaleAbs_px 2 (-50) (convertScaleAbs_px 2 (-50) v) =
   convertScaleAbs_px 2 (-50) v
   <-> v = 0 \/ v = 50 \/ 153 <= v).
Proof.
  intros Hv.
  assert (Hr : 0 <= convertScaleAbs_px 2 (-50) v <= 255)
    by apply saturate_u8_range.
  rewrite (high_contrast_channel (convertScaleAbs_px 2 (-50) v) Hr).
  rewrite (high_contrast_channel v Hv).
  destruct (Z.ltb_spec v 25);
    destruct (Z.ltb_spec (50 - 2 * v) 25);
    destruct (Z.ltb_spec (Z.min 255 (2 * v - 50)) 25); lia.
Qed.

Lemma high_contrast_twice_witness :
  convertScaleAbs_px 2 (-50) (convertScaleAbs_px 2 (-50) 100) =
  convertScaleAbs_px 2 (-50) 100
  <-> 100 = 0 \/ 100 = 50 \/ 153 <= 100.
Proof. apply (high_contrast_twice 100). lia. Defined.

(** ** Export: the placement of the image on the page *)

Lemma py_min_cases (a b : Q) :
  (py_min a b = a /\ (a <= b)%Q) \/ (py_min a b = b /\ (b <= a)%Q).
Proof.
  unfold py_min. destruct (Qltb b a) eqn:E.
  - right. split; [reflexivity|]. apply Qlt_le_weak. now apply Qltb_true.
  - left. split; [reflexivity|]. now apply Qltb_false.
Qed.

Lemma empty_false_cols (c : raster bgr) :
  empty (Color c) = false -> (0 < rows c)%nat /\ (0 < cols c)%nat.
Proof.
  unfold empty; simpl. intros H. apply orb_false_iff in H.
  destruct H as [Hr Hc]. apply Nat.eqb_neq in Hr, Hc. lia.
Qed.

Lemma reverse_channels_shape (c rgb : raster bgr) :
  reverse_channels (Color c) = Done rgb -> rows rgb = rows c /\ cols rgb = cols c.
Proof.
  simpl. intros H. injection H as <-. split.
  - apply length_map.
  - apply cols_map. intros. apply length_map.
Qed.

Lemma Qmult_div_cancel (a n : Q) : (0 < n)%Q -> (n * (a / n) == a)%Q.
Proof.
  intros Hn. apply Qmult_div_r. intros H. rewrite H in Hn. discriminate.
Qed.

(** The placement [save_to_pdf] computes for a non-empty colour raster, and
    what the arithmetic of the source gives for it. *)
Lemma save_to_pdf_placement (W H : Q) (c : raster bgr) :
  empty (Color c) = false -> (56 < W)%Q -> (56 < H)%Q ->
  let iw := inject_Z (Z.of_nat (cols c)) in
  let ih := inject_Z (Z.of_nat (rows c)) in
  exists p,
    save_to_pdf W H (Color c) = Done p /\
    (x p == (W - draw_width p) / 2)%Q /\
    (y p == H - 28 - draw_height p)%Q /\
    (0 < draw_width p)%Q /\ (draw_width p <= W - 56)%Q /\
    (0 < draw_height p)%Q /\ (draw_height p <= H - 56)%Q /\
    (draw_width p * ih == draw_height p * iw)%Q /\
    ((draw_width p == W - 56)%Q \/ (draw_height p == H - 56)%Q).
Proof.
  intros Hne HW HH iw ih.
  destruct (empty_false_cols c Hne) as [Hr Hc].
  destruct (reverse_channels (Color c)) as [rgb|e] eqn:Ergb; [|discriminate].
  destruct (reverse_channels_shape c rgb Ergb) as [Er Ec].
  unfold save_to_pdf. rewrite Ergb. cbn [and_then]. rewrite Er, Ec.
  unfold py_div.
  destruct (Z.eqb_spec (Z.of_nat (cols c)) 0) as [E|_]; [lia|].
  destruct (Z.eqb_spec (Z.of_nat (rows c)) 0) as [E|_]; [lia|].
  cbn [and_then]. fold iw ih.
  assert (Hiw : (0 < iw)%Q) by (unfold iw, Qlt; simpl; lia).
  assert (Hih : (0 < ih)%Q) by (unfold ih, Qlt; simpl; lia).
  set (mw := (W - 2 * 28)%Q). set (mh := (H - 2 * 28)%Q).
  assert (Hmw : (0 < mw)%Q) by (unfold mw; Lqa.lra).
  assert (Hmh : (0 < mh)%Q) by (unfold mh; Lqa.lra).
  assert (Hsw : (iw * (mw / iw) == mw)%Q) by now apply Qmult_div_cancel.
  assert (Hsh : (ih * (mh / ih) == mh)%Q) by now apply Qmult_div_cancel.
  set (sw := (mw / iw)%Q) in *. set (sh := (mh / ih)%Q) in *.
  assert (Psw : (0 < sw)%Q) by (apply Qlt_shift_div_l; Lqa.lra).
  assert (Psh : (0 < sh)%Q) by (apply Qlt_shift_div_l; Lqa.lra).
  eexists. split; [reflexivity|]. cbn [x y draw_width draw_height].
  split; [reflexivity|]. split; [reflexivity|].
  destruct (py_min_cases sw sh) as [[-> Hle]|[-> Hle]].
  - assert (Hd : (ih * sw <= ih * sh)%Q)
      by (rewrite !(Qmult_comm ih); apply Qmult_le_compat_r; Lqa.lra).
    repeat split;
      try (apply Qmult_lt_0_compat; assumption);
      try ring;
      try (unfold mw, mh in *; Lqa.lra).
    all: left; unfold mw in *; Lqa.lra.
  - assert (Hd : (iw * sh <= iw * sw)%Q)
      by (rewrite !(Qmult_comm iw); apply Qmult_le_compat_r; Lqa.lra).
    repeat split;
      try (apply Qmult_lt_0_compat; assumption);
      try ring;
      try (unfold mw, mh in *; Lqa.lra).
    all: right; unfold mh in *; Lqa.lra.
Qed.

(** X14. On a page wider and higher than the two margins of 28 points,
    [save_to_pdf] draws a non-empty colour raster inside the margins:
    the drawn width and height are positive, at most the page size less 56,
    in the proportion of the columns and rows of the raster, and one of
    them is exactly the page size less 56. *)
Theorem save_to_pdf_fits_the_page (W H : Q) (c : raster bgr) :
  empty (Color c) = false -> (56 < W)%Q -> (56 < H)%Q ->
  exists p,
    save_to_pdf W H (Color c) = Done p /\
    (0 < draw_width p)%Q /\ (draw_width p <= W - 56)%Q /\
    (0 < draw_height p)%Q /\ (draw_height p <= H - 56)%Q /\
    (draw_width p * inject_Z (Z.of_nat (rows c)) ==
     draw_height p * inject_Z (Z.of_nat (cols c)))%Q /\
    ((draw_width p == W - 56)%Q \/ (draw_height p == H - 56)%Q).
Proof.
  intros Hne HW HH.
  destruct (save_to_pdf_placement W H c Hne HW HH)
    as (p & Hp & _ & _ & H1 & H2 & H3 & H4 & H5 & H6).
  exists p. repeat split; assumption.
Qed.

Lemma save_to_pdf_fits_the_page_witness :
  exists p,
    save_to_pdf (fst A4) (snd A4) page = Done p /\
    (0 < draw_width p)%Q /\ (draw_width p <= fst A4 - 56)%Q /\
    (0 < draw_height p)%Q /\ (draw_height p <= snd A4 - 56)%Q /\
    (draw_width p * inject_Z (Z.of_nat 10) == draw_height p * inject_Z (Z.of_nat 10))%Q /\
    ((draw_width p == fst A4 - 56)%Q \/ (draw_height p == snd A4 - 56)%Q).
Proof.
  apply (save_to_pdf_fits_the_page (fst A4) (snd A4)
           (repeat (repeat (200, 200, 200) 10) 10)); reflexivity.
Defined.

(** X15. The drawn image is centred between the left and right edges of the
    page, at least 28 points from each, and its top edge is 28 points below
    the top of the page, whatever room is left goes below it: it is not
    centred vertically. *)
Theorem save_to_pdf_centres_across_and_aligns_to_top (W H : Q) (c : raster bgr) :
  empty (Color c) = false -> (56 < W)%Q -> (56 < H)%Q ->
  exists p,
    save_to_pdf W H (Color c) = Done p /\
    (28 <= x p)%Q /\ (x p == W - (x p + draw_width p))%Q /\
    (y p + draw_height p == H - 28)%Q /\ (28 <= y p)%Q.
Proof.
  intros Hne HW HH.
  destruct (save_to_pdf_placement W H c Hne HW HH)
    as (p & Hp & Hx & Hy & H1 & H2 & H3 & H4 & _ & _).
  exists p. split; [exact Hp|].
  assert (Hx2 : (2 * x p == W - draw_width p)%Q).
  { rewrite Hx. field. }
  repeat split; Lqa.lra.
Qed.

Lemma save_to_pdf_centres_across_and_aligns_to_top_witness :
  exists p,
    save_to_pdf (fst A4) (snd A4) page = Done p /\
    (28 <= x p)%Q /\ (x p == fst A4 - (x p + draw_width p))%Q /\
    (y p + draw_height p == snd A4 - 28)%Q /\ (28 <= y p)%Q.
Proof.
  apply (save_to_pdf_centres_across_and_aligns_to_top (fst A4) (snd A4)
           (repeat (repeat (200, 200, 200) 10) 10)); reflexivity.
Defined.

(** ** Export: channel order and gray results *)

(** X17. Reversing the channel order twice gives the raster back. *)
Theorem reverse_channels_twice (c : raster bgr) :
  and_then (reverse_channels (Color c)) (fun rgb => reverse_channels (Color rgb))
  = Done c.
Proof.
  assert (Hline : forall line : list bgr,
            map (fun p : bgr => match p with (b, g, r) => (r, g, b) end)
              (map (fun p : bgr => match p with (b, g, r) => (r, g, b) end) line)
            = line).
  { induction line as [|[[b g] r] rest IH]; simpl; [reflexivity | now rewrite IH]. }
  assert (Hc : map (map (fun p : bgr => match p with (b, g, r) => (r, g, b) end))
                 (map (map (fun p : bgr => match p with (b, g, r) => (r, g, b) end)) c)
               = c).
  { induction c as [|line rest IH]; simpl; [reflexivity | now rewrite Hline, IH]. }
  exact (f_equal Done Hc).
Qed.

Lemma py_div_nonzero (a : Q) (n : Z) : n <> 0 -> py_div a n = Done (a / inject_Z n)%Q.
Proof. intros Hn. unfold py_div. now destruct (Z.eqb_spec n 0). Qed.

(** A non-empty colour raster is placed on a page of any size without an
    error. *)
Lemma save_to_pdf_colour_ok (W H : Q) (c : raster bgr) :
  empty (Color c) = false -> exists p, save_to_pdf W H (Color c) = Done p.
Proof.
  intros Hne. destruct (empty_false_cols c Hne) as [Hr Hc].
  destruct (reverse_channels (Color c)) as [rgb|e] eqn:Ergb; [|discriminate].
  destruct (reverse_channels_shape c rgb Ergb) as [Er Ec].
  unfold save_to_pdf. rewrite Ergb. cbn [and_then]. rewrite Er, Ec.
  rewrite !py_div_nonzero by lia. cbn [and_then]. eauto.
Qed.

(** X16. [save_to_pdf] itself raises IndexError on a two-dimensional raster; the
    export branch of app.py never lets that happen: a non-empty gray result
    is first replicated to three equal channels, and the PDF placement is
    then computed as for a colour raster and succeeds. *)
Theorem generate_pdf_accepts_gray (W H : Q) (g : raster Z) :
  empty (Gray g) = false ->
  save_to_pdf W H (Gray g) = Failed IndexError /\
  generate_pdf W H (Gray g) =
    save_to_pdf W H (Color (map (map (fun v => (v, v, v))) g)) /\
  exists p, generate_pdf W H (Gray g) = Done p.
Proof.
  intros Hne. split; [reflexivity|].
  assert (E : generate_pdf W H (Gray g) =
              save_to_pdf W H (Color (map (map (fun v => (v, v, v))) g))).
  { unfold generate_pdf, cvtColor_GRAY2BGR. now rewrite Hne. }
  split; [exact E|]. rewrite E.
  apply save_to_pdf_colour_ok.
  assert (Hs : shape (Color (map (map (fun v : Z => (v, v, v))) g)) = shape (Gray g)).
  { simpl. f_equal; [apply length_map | apply cols_map; intros; apply length_map]. }
  unfold empty in *. now rewrite Hs.
Qed.

Lemma generate_pdf_accepts_gray_witness :
  save_to_pdf (fst A4) (snd A4) (Gray [[255]]) = Failed IndexError /\
  generate_pdf (fst A4) (snd A4) (Gray [[255]]) =
    save_to_pdf (fst A4) (snd A4) (Color (map (map (fun v => (v, v, v))) [[255]])) /\
  exists p, generate_pdf (fst A4) (snd A4) (Gray [[255]]) = Done p.
Proof.
  apply (generate_pdf_accepts_gray (fst A4) (snd A4) [[255]]). reflexivity.
Defined.

(** ** When the pipeline raises *)

Lemma empty_tabulate_color (h w : nat) (f : nat -> nat -> bgr) :
  (0 < h)%nat -> (0 < w)%nat -> empty (Color (tabulate h w f)) = false.
Proof.
  intros Hh Hw. unfold empty. simpl.
  destruct (tabulate_shape h w f Hh) as [-> ->].
  apply orb_false_iff. split; apply Nat.eqb_neq; lia.
Qed.

Lemma Qfloor_pos_iff (q : Q) : 0 < Qfloor q <-> (1 <= q)%Q.
Proof.
  split; intros H.
  - apply Qle_trans with (inject_Z (Qfloor q)); [|apply Qfloor_le].
    change 1%Q with (inject_Z 1). rewrite <- Zle_Qle. lia.
  - apply Qfloor_resp_le in H. change 1%Q with (inject_Z 1) in H.
    rewrite Qfloor_Z in H. lia.
Qed.

Lemma scaled_height (h : Z) :
  0 < h -> Qfloor (inject_Z h * ((1000 # 1) / inject_Z h)) = 1000.
Proof.
  intros Hh.
  assert (E : (inject_Z h * ((1000 # 1) / inject_Z h) == inject_Z 1000)%Q).
  { rewrite Qmult_div_r; [reflexivity|].
    intros H. unfold Qeq in H; simpl in H. lia. }
  now rewrite (Qfloor_comp _ _ E), Qfloor_Z.
Qed.

Lemma scaled_width_pos (w h : Z) :
  0 < h -> (0 < Qfloor (inject_Z w * ((1000 # 1) / inject_Z h)) <-> h <= 1000 * w).
Proof.
  intros Hh. rewrite Qfloor_pos_iff.
  assert (Hq : (0 < inject_Z h)%Q) by (unfold Qlt; simpl; lia).
  assert (E : (inject_Z w * ((1000 # 1) / inject_Z h) ==
               inject_Z (1000 * w) / inject_Z h)%Q).
  { unfold Qdiv. rewrite inject_Z_mult. change (inject_Z 1000) with (1000 # 1). ring. }
  rewrite E. split; intros H.
  - apply (Qmult_le_compat_r _ _ (inject_Z h)) in H; [|now apply Qlt_le_weak].
    rewrite Qmult_1_l in H.
    unfold Qdiv in H. rewrite <- Qmult_assoc, (Qmult_comm (/ _)), Qmult_inv_r in H.
    + rewrite Qmult_1_r in H. now rewrite <- Zle_Qle in H.
    + intros H0. rewrite H0 in Hq. discriminate.
  - apply Qle_shift_div_l; [exact Hq|].
    rewrite Qmult_1_l. now rewrite <- Zle_Qle.
Qed.

(** The preprocessing of the locator succeeds exactly on a non-empty colour
    image that is not so narrow that scaling it down to 1000 rows leaves no
    column. *)
Lemma locator_gray_ok_iff (cv : OpenCV) (img : image) :
  (exists gray, locator_gray cv img = Ok gray) <->
  channels img = 3%nat /\ empty img = false /\
  (1000 < Z.of_nat (fst (shape img)) ->
   Z.of_nat (fst (shape img)) <= 1000 * Z.of_nat (snd (shape img))).
Proof.
  split.
  - intros [gray Hg]. destruct (locator_gray_ok cv img gray Hg) as (Hne & c & ->).
    split; [reflexivity|]. split; [exact Hne|]. intros Htall.
    unfold locator_gray, scale_of in Hg. destruct (shape (Color c)) as [h w] eqn:Es.
    cbn [fst snd] in Htall |- *.
    assert (Hb := Htall). apply Z.ltb_lt in Hb. rewrite Hb in Hg.
    apply bind_ok in Hg. destruct Hg as (proc & Hr & _).
    unfold resize in Hr. rewrite Hne in Hr. cbn [orb] in Hr.
    destruct (Qfloor (inject_Z (Z.of_nat w) * ((1000 # 1) / inject_Z (Z.of_nat h))) <=? 0)
      eqn:Ew; [cbn [orb] in Hr; discriminate|].
    apply Z.leb_gt in Ew.
    apply scaled_width_pos in Ew; lia.
  - intros (Hch & Hne & Hw). apply channels_color in Hch. destruct Hch as [c ->].
    unfold locator_gray, scale_of. destruct (shape (Color c)) as [h w] eqn:Es.
    cbn [fst snd] in Hw. destruct (1000 <? Z.of_nat h) eqn:Htall.
    + apply Z.ltb_lt in Htall.
      assert (Ew : 0 < Qfloor (inject_Z (Z.of_nat w) * ((1000 # 1) / inject_Z (Z.of_nat h))))
        by (apply scaled_width_pos; lia).
      assert (Eh : Qfloor (inject_Z (Z.of_nat h) * ((1000 # 1) / inject_Z (Z.of_nat h))) = 1000)
        by (apply scaled_height; lia).
      assert (Eb := Ew). apply Z.leb_gt in Eb.
      unfold resize. rewrite Hne, Eh, Eb.
      change (1000 <=? 0) with false. cbn [orb bind].
      rewrite cvtColor_color; [cbn [bind]; eauto|].
      apply empty_tabulate_color; lia.
    + cbn [bind]. rewrite (cvtColor_color cv c Hne). cbn [bind]. eauto.
Qed.

Lemma four_point_transform_of_colour (cv : OpenCV) (c : raster bgr) (pts : list point) :
  empty (Color c) = false -> pts <> [] ->
  exists work,
    four_point_transform cv (Color c) pts = Ok (Color work) /\
    empty (Color work) = false.
Proof.
  intros Hne Hp. destruct (order_points_spec pts Hp) as (r & Hr & _).
  unfold four_point_transform. rewrite Hr. unfold bind.
  destruct (warpPerspective_ok cv (Color c)
              (getPerspectiveTransform cv r (dst_corners (maxWidth r) (maxHeight r)))
              (maxWidth r) (maxHeight r) Hne) as (out & Ho & Hch & Hs).
  apply channels_color in Hch. destruct Hch as [work ->].
  exists work. split; [exact Ho|].
  unfold empty. rewrite Hs.
  destruct ((maxWidth r <=? 0) || (maxHeight r <=? 0)) eqn:E.
  - exact Hne.
  - apply orb_false_iff in E. destruct E as [Ew Eh].
    apply Z.leb_gt in Ew, Eh.
    apply orb_false_iff. split; apply Nat.eqb_neq; lia.
Qed.

Lemma pipeline_with_perspective_ok_iff
        (cv : OpenCV) (img : image) (mode : string) :
  ((exists out, process_image cv img true mode = Ok out) <->
   channels img = 3%nat /\ empty img = false /\
   (1000 < Z.of_nat (fst (shape img)) ->
    Z.of_nat (fst (shape img)) <= 1000 * Z.of_nat (snd (shape img)))) /\
  (forall e, process_image cv img true mode = Raise e -> e = cv2_error).
Proof.
  rewrite <- locator_gray_ok_iff.
  destruct (locator_gray cv img) as [gray|e0] eqn:Hg.
  - destruct (locator_gray_ok cv img gray Hg) as (Hne & c & ->).
    destruct (find_document_contour_unfold cv (Color c) gray Hg) as [_ Hf].
    assert (Hok : exists out, process_image cv (Color c) true mode = Ok out).
    { unfold process_image, perspective_stage. rewrite Hf. unfold bind at 2.
      destruct (snd (canny_loop cv gray (min_area_of (Color c)) (scale_of (Color c))
                       canny_pairs)) as [quad|] eqn:Eq.
      - assert (Hq : quad <> []).
        { rewrite <- Eq in Hf.
          pose proof (located_quadrilateral_facts cv (Color c) quad) as H4.
          rewrite Hf, Eq in H4. destruct (H4 eq_refl) as [Hl _].
          intros ->. discriminate. }
        destruct (four_point_transform_of_colour cv c quad Hne Hq) as (work & Hw & Hwe).
        rewrite Hw. unfold bind. now apply enhance_stage_color_ok.
      - unfold bind. now apply enhance_stage_color_ok. }
    split; [split; eauto|].
    intros e He. destruct Hok as [out Ho]. congruence.
  - apply locator_gray_raise in Hg as He0. subst e0.
    assert (Hp : process_image cv img true mode = Raise cv2_error).
    { unfold process_image, perspective_stage, find_document_contour,
        find_document_contour_run. now rewrite Hg. }
    rewrite Hp. split.
    + split; [intros [out H]; discriminate H | intros [gray H]; congruence].
    + intros e H. congruence.
Qed.

(** X8. With perspective correction on, [process_image] raises nothing but
    OpenCV errors. In every mode it returns a raster for a non-empty colour
    image of height at most 1000, or of a height below 1000 times its
    width, whether a document is found or not; and it raises for a
    single-channel image, for an empty image, and for an image whose height
    exceeds both 1000 and 1000 times its width. *)
Theorem pipeline_with_perspective_outcome
        (cv : OpenCV) (img : image) (mode : string) :
  let h := Z.of_nat (fst (shape img)) in
  let w := Z.of_nat (snd (shape img)) in
  (forall e, process_image cv img true mode = Raise e -> e = cv2_error) /\
  (channels img = 3%nat -> empty img = false -> h <= 1000 \/ h < 1000 * w ->
   exists out, process_image cv img true mode = Ok out) /\
  (channels img = 1%nat \/ empty img = true \/ (1000 < h /\ 1000 * w < h) ->
   process_image cv img true mode = Raise cv2_error).
Proof.
  intros h w.
  destruct (pipeline_with_perspective_ok_iff cv img mode) as [Hiff Hraise].
  split; [exact Hraise|]. split.
  - intros Hc He Hs. apply Hiff. repeat split; try assumption.
    fold h w. lia.
  - intros Hbad.
    destruct (process_image cv img true mode) as [out|e] eqn:E.
    + assert (Hok : exists o, Ok out = Ok o) by eauto.
      apply Hiff in Hok. destruct Hok as (Hc & He & Hs). fold h w in Hs.
      destruct Hbad as [H|[H|[H1 H2]]]; [congruence | congruence | lia].
    + now rewrite (Hraise e eq_refl).
Qed.


